(** * HashyStepTable: an open-addressing hash table with a step hash

    A shallow embedding of [Assignment_2A/hashy_step_table.py]
    ([class HashyStepTable]) and the properties of its specification.

    Modelling conventions.
    - Python integers are [Z]; [%] is floor modulo, which on [Z] is
      [Z.modulo], and raises [ZeroDivisionError] on a zero divisor.
    - A key is a Python string, read by the code only through
      [for char in key] and [ord(char)]: it is modelled as the list of its
      code points.
    - A slot of the backing array holds [None], the sentinel [DELETED] or a
      tuple [(key, data)].
    - A method that mutates [self] returns an [outcome]: the table it leaves
      behind, also when it raises.
    - The load test [len(self) > self.table_size * 2 / 3] is a comparison of
      an integer with the correctly rounded quotient of two integers; for
      capacities below 2^52 it holds exactly when
      [3 * count > 2 * table_size], which is how it is written here.
    - The builtin [len(self)] calls [__len__] and raises [ValueError] when
      it returns a negative number; [count] is negative after more calls of
      [__delitem__] than counted calls of [__setitem__]. *)

From Stdlib Require Import ZArith List Lia Bool String Ascii.
From stdpp Require Import base list.

Local Open Scope Z_scope.

(** ** Exceptions and results *)

Inductive exn : Type :=
  | KeyError
  | FullError
  | TypeError
  | ZeroDivisionError
  | IndexError
  | ValueError.

Inductive result (A : Type) : Type :=
  | Return (a : A)
  | Throw (e : exn).

Arguments Return {A} a.
Arguments Throw {A} e.

(** An exception ends the computation; [x ← r; k] is stdpp's notation for
    [mbind]. *)
#[global] Instance result_bind : MBind result :=
  fun A B (f : A -> result B) (r : result A) =>
    match r with
    | Return a => f a
    | Throw e => Throw e
    end.

(** ** Keys *)

Definition key : Type := list N.

Definition ord (char : N) : Z := Z.of_N char.

(** The key written as a string literal. *)
Definition str (s : string) : key :=
  List.map N_of_ascii (list_ascii_of_string s).

Definition key_eqb (k1 k2 : key) : bool := bool_decide (k1 = k2).

(** [a % b] *)
Definition py_mod (a b : Z) : result Z :=
  if b =? 0 then Throw ZeroDivisionError else Return (a mod b).

(** [range(n)] *)
Definition range (n : Z) : list Z := List.map Z.of_nat (seq 0 (Z.to_nat n)).

Definition HASH_BASE : Z := 31.

Definition DEFAULT_TABLE_SIZES : list positive :=
  [5; 13; 29; 53; 97; 193; 389; 769; 1543; 3079; 6151; 12289; 24593; 49157;
   98317; 196613; 393241; 786433; 1572869]%positive.

Section HashyStepTable.

Context {V : Type}.

(** ** Slots, the backing array and the table *)

Inductive Slot : Type :=
  | Empty                          (* None *)
  | DELETED                        (* the sentinel object *)
  | Occupied (k : key) (v : V).    (* (key, data) *)

(** Modelled from the spec: the array type [ArrayR] of
    [data_structures/referential_array.py] is not among the sources. The
    spec has it as an owning fixed-size indexable array, indexed
    [0..capacity-1], whose slots all start Empty, with a positive length. *)
Definition ArrayR (length : positive) : list Slot :=
  replicate (Pos.to_nat length) Empty.

(** [self.array[i]]. The code reads and writes the array only at positions
    that [hash] and the probe loop computed modulo the capacity, which lie
    in [0..capacity-1] ([hash_range], [next_position_range]); outside that
    range the model raises [IndexError]. *)
Definition ArrayR_get (arr : list Slot) (i : Z) : result Slot :=
  if i <? 0 then Throw IndexError
  else match arr !! Z.to_nat i with
       | Some s => Return s
       | None => Throw IndexError
       end.

(** [self.array[i] = s], at a position that was read before. *)
Definition ArrayR_set (arr : list Slot) (i : Z) (s : Slot) : list Slot :=
  <[Z.to_nat i := s]> arr.

(** The attributes of a [HashyStepTable]. The schedule is a list of
    positive integers, as the constructor expects it. *)
Record table : Type := mkTable {
  TABLE_SIZES : list positive;
  size_index : nat;
  array : list Slot;
  count : Z
}.

(** What a mutating method leaves behind. [OutOfFuel] is not a Python
    outcome: it marks a recursion cut short by the model's fuel, and
    [setitem_terminates] and [rehash_terminates] show that the methods never
    end there. *)
Inductive outcome : Type :=
  | Ok (t : table)
  | Raise (e : exn) (t : table)
  | OutOfFuel.

(** [__init__] *)
Definition init (sizes : option (list positive)) : result table :=
  let TABLE_SIZES := match sizes with
                     | Some s => s
                     | None => DEFAULT_TABLE_SIZES
                     end in
  match TABLE_SIZES !! 0%nat with
  | None => Throw IndexError
  | Some n => Return (mkTable TABLE_SIZES 0 (ArrayR n) 0)
  end.

(** [table_size] *)
Definition table_size (t : table) : Z := Z.of_nat (length (array t)).

(** [__len__] *)
Definition len (t : table) : Z := count t.

(** [len(self)]: the builtin [len] returns what [__len__] returns, and
    raises [ValueError] when that is negative. *)
Definition builtin_len (t : table) : result Z :=
  if len t <? 0 then Throw ValueError else Return (len t).

(** ** The two hash functions *)

Fixpoint hash_loop (size : Z) (chars : key) (value a : Z) : result Z :=
  match chars with
  | [] => Return value
  | char :: rest =>
      value' ← py_mod (ord char + a * value) size;
      a' ← py_mod (a * HASH_BASE) (size - 1);
      hash_loop size rest value' a'
  end.

(** [hash] *)
Definition hash (t : table) (k : key) : result Z :=
  hash_loop (table_size t) k 0 31415.

Fixpoint hash2_loop (size : Z) (chars : key) (value : Z) : result Z :=
  match chars with
  | [] => Return value
  | char :: rest =>
      value' ← py_mod (ord char + value * 37) size;
      hash2_loop size rest value'
  end.

(** [hash2] *)
Definition hash2 (t : table) (k : key) : result Z :=
  value ← hash2_loop (table_size t) k 0;
  Return (Z.max 1 value).

(** ** Probing *)

(** The [for _ in range(self.table_size)] loop of [_hashy_probe] with [n]
    iterations left, followed by the code after the loop. *)
Fixpoint probe_loop (arr : list Slot) (k : key) (is_insert : bool)
    (step_size : Z) (n : nat) (position : Z) (first_deleted : option Z)
    : result Z :=
  match n with
  | O =>
      match is_insert, first_deleted with
      | true, Some d => Return d
      | true, None => Throw FullError
      | false, _ => Throw KeyError
      end
  | S n' =>
      s ← ArrayR_get arr position;
      let next := (position + step_size) mod Z.of_nat (length arr) in
      match s with
      | Empty =>
          if is_insert
          then Return (match first_deleted with
                       | Some d => d
                       | None => position
                       end)
          else Throw KeyError
      | DELETED =>
          probe_loop arr k is_insert step_size n' next
            (match first_deleted with
             | None => Some position
             | Some d => Some d
             end)
      | Occupied k' _ =>
          if key_eqb k' k then Return position
          else probe_loop arr k is_insert step_size n' next first_deleted
      end
  end.

(** [_hashy_probe] *)
Definition _hashy_probe (t : table) (k : key) (is_insert : bool) : result Z :=
  position ← hash t k;
  step_size ← hash2 t k;
  probe_loop (array t) k is_insert step_size (Z.to_nat (table_size t))
    position None.

(** ** Iteration *)

Fixpoint keys_loop (arr : list Slot) (xs : list Z) (res : list key)
    : result (list key) :=
  match xs with
  | [] => Return res
  | x :: xs' =>
      s ← ArrayR_get arr x;
      match s with
      | Empty => keys_loop arr xs' res
      | DELETED => Throw TypeError        (* DELETED[0] *)
      | Occupied k _ => keys_loop arr xs' (res ++ [k])
      end
  end.

(** [keys] *)
Definition keys (t : table) : result (list key) :=
  keys_loop (array t) (range (table_size t)) [].

Fixpoint values_loop (arr : list Slot) (xs : list Z) (res : list V)
    : result (list V) :=
  match xs with
  | [] => Return res
  | x :: xs' =>
      s ← ArrayR_get arr x;
      match s with
      | Empty => values_loop arr xs' res
      | DELETED => Throw TypeError        (* DELETED[1] *)
      | Occupied _ v => values_loop arr xs' (res ++ [v])
      end
  end.

(** [values] *)
Definition values (t : table) : result (list V) :=
  values_loop (array t) (range (table_size t)) [].

(** ** Lookup *)

(** [__getitem__] *)
Definition getitem (t : table) (k : key) : result V :=
  position ← _hashy_probe t k false;
  s ← ArrayR_get (array t) position;
  match s with
  | Occupied _ v => Return v
  | _ => Throw TypeError
  end.

(** [__contains__]: only [KeyError] is caught. *)
Definition contains (t : table) (k : key) : result bool :=
  match getitem t k with
  | Return _ => Return true
  | Throw KeyError => Return false
  | Throw e => Throw e
  end.

(** ** Insertion, deletion and resizing *)

(** [__setitem__] up to and including [self.array[position] = (key, data)]. *)
Definition write (t : table) (position : Z) (k : key) (data : V)
    : result table :=
  s ← ArrayR_get (array t) position;
  let count' := match s with
                | Empty => count t + 1
                | _ => count t
                end in
  Return (mkTable (TABLE_SIZES t) (size_index t)
            (ArrayR_set (array t) position (Occupied k data)) count').

(** [len(self) > self.table_size * 2 / 3], once [len(self)] has returned:
    its value is then [len t]. *)
Definition over_load (t : table) : bool :=
  2 * table_size t <? 3 * len t.

(** The [for item in old_array] loop of [_rehash]; [set] is [__setitem__]. *)
Fixpoint reinsert (set : table -> key -> V -> outcome) (items : list Slot)
    (t : table) : outcome :=
  match items with
  | [] => Ok t
  | Empty :: rest => reinsert set rest t
  | DELETED :: rest => Raise TypeError t        (* key, value = DELETED *)
  | Occupied k v :: rest =>
      match set t k v with
      | Ok t' => reinsert set rest t'
      | r => r
      end
  end.

(** [_rehash], with [__setitem__] as a parameter. *)
Definition rehash_with (set : table -> key -> V -> outcome) (t : table)
    : outcome :=
  let old_array := array t in
  let t1 := mkTable (TABLE_SIZES t) (S (size_index t)) (array t) (count t) in
  if (length (TABLE_SIZES t1) <=? size_index t1)%nat
  then Raise FullError t1
  else match TABLE_SIZES t1 !! size_index t1 with
       | None => Raise IndexError t1
       | Some n =>
           reinsert set old_array
             (mkTable (TABLE_SIZES t1) (size_index t1) (ArrayR n) 0)
       end.

(** [__setitem__]; [fuel] bounds the depth of the calls of [_rehash]. *)
Fixpoint setitem_fuel (fuel : nat) (t : table) (k : key) (data : V)
    : outcome :=
  match _hashy_probe t k true with
  | Throw e => Raise e t
  | Return position =>
      match write t position k data with
      | Throw e => Raise e t
      | Return t' =>
          match builtin_len t' with                      (* len(self) *)
          | Throw e => Raise e t'
          | Return _ =>
              if over_load t'
              then match fuel with
                   | O => OutOfFuel
                   | S fuel' => rehash_with (setitem_fuel fuel') t'
                   end
              else Ok t'
          end
      end
  end.

(** Every call of [_rehash] moves [size_index] forward, and none goes on
    once it has reached the end of [TABLE_SIZES]. *)
Definition enough_fuel (t : table) : nat :=
  S (length (TABLE_SIZES t) - size_index t).

(** [__setitem__] *)
Definition setitem (t : table) (k : key) (data : V) : outcome :=
  setitem_fuel (enough_fuel t) t k data.

(** [_rehash] *)
Definition rehash (t : table) : outcome :=
  rehash_with (setitem_fuel (enough_fuel t)) t.

(** [__delitem__] *)
Definition delitem (t : table) (k : key) : outcome :=
  match _hashy_probe t k false with
  | Throw e => Raise e t
  | Return position =>
      Ok (mkTable (TABLE_SIZES t) (size_index t)
            (ArrayR_set (array t) position DELETED) (count t - 1))
  end.

(** ** The other methods of the table *)

(** [is_empty] *)
Definition is_empty (t : table) : bool := count t =? 0.

(** [is_full] *)
Definition is_full (t : table) : bool := count t =? table_size t.

(** The [for item in self.array] loop of [__str__]; [str_value] is [str] on
    values, and [str] on a key, a string, is the key. *)
Fixpoint str_loop (str_value : V -> key) (items : list Slot) (res : key)
    : result key :=
  match items with
  | [] => Return res
  | Empty :: rest => str_loop str_value rest res
  | DELETED :: rest => Throw TypeError          (* (key, value) = DELETED *)
  | Occupied k v :: rest =>
      str_loop str_value rest
        (res ++ str "(" ++ k ++ str "," ++ str_value v ++ str ")" ++ [10%N])
  end.

(** [__str__] *)
Definition to_str (str_value : V -> key) (t : table) : result key :=
  str_loop str_value (array t) [].

(** What [__str__] adds to its result for one entry. *)
Definition item_str (str_value : V -> key) (item : key * V) : key :=
  str "(" ++ item.1 ++ str "," ++ str_value item.2 ++ str ")" ++ [10%N].

(** ** The probe as the specification words it *)

(** The slots a probe may examine, in order: it starts at [start] and
    advances by [step] modulo [capacity], for [capacity] slots at most. *)
Definition probe_path (start step capacity : Z) : list Z :=
  List.map (fun j => (start + j * step) mod capacity) (range capacity).

(** A slot at which the search for [k] ends: Empty, or Occupied by [k]. *)
Definition resolves (arr : list Slot) (k : key) (p : Z) : bool :=
  match ArrayR_get arr p with
  | Return Empty => true
  | Return (Occupied k' _) => key_eqb k' k
  | _ => false
  end.

Definition is_tombstone (arr : list Slot) (p : Z) : bool :=
  match ArrayR_get arr p with
  | Return DELETED => true
  | _ => false
  end.

(** The positions of [path] before the first at which [stop] holds. *)
Fixpoint passed_over (stop : Z -> bool) (path : list Z) : list Z :=
  match path with
  | [] => []
  | p :: rest => if stop p then [] else p :: passed_over stop rest
  end.

(** The result of a probe along [path], given the first tombstone seen. *)
Definition resolution (arr : list Slot) (k : key) (is_insert : bool)
    (path : list Z) (first_tombstone : option Z) : result Z :=
  match List.find (resolves arr k) path with
  | Some p =>
      match ArrayR_get arr p with
      | Return (Occupied _ _) => Return p
      | _ =>                                        (* Empty *)
          if is_insert then Return (default p first_tombstone)
          else Throw KeyError
      end
  | None =>
      if is_insert
      then match first_tombstone with
           | Some d => Return d
           | None => Throw FullError
           end
      else Throw KeyError
  end.

Definition probe_spec (t : table) (k : key) (is_insert : bool) : result Z :=
  start ← hash t k;
  step ← hash2 t k;
  let path := probe_path start step (table_size t) in
  let examined := passed_over (resolves (array t) k) path in
  resolution (array t) k is_insert path
    (List.find (is_tombstone (array t)) examined).

(** ** The entries in slot order *)

Definition stored_keys (arr : list Slot) : list key :=
  omap (fun s => match s with Occupied k _ => Some k | _ => None end) arr.

Definition stored_values (arr : list Slot) : list V :=
  omap (fun s => match s with Occupied _ v => Some v | _ => None end) arr.

(** ** Notions used in the proofs *)

(** What a slot is to a lookup of [k]: the end of the search, a slot to pass
    over, or the key itself. *)
Inductive view : Type := VEmpty | VSkip | VMatch.

Definition view_of (k : key) (s : Slot) : view :=
  match s with
  | Empty => VEmpty
  | DELETED => VSkip
  | Occupied k' _ => if key_eqb k' k then VMatch else VSkip
  end.

Definition view_at (arr : list Slot) (k : key) (i : Z) : result view :=
  s ← ArrayR_get arr i; Return (view_of k s).

(** A slot in which an insert of [k] may end. *)
Definition claimable (k : key) (s : Slot) : Prop :=
  match s with
  | Empty | DELETED => True
  | Occupied k' _ => k' = k
  end.

(** The positions of the loop of [_hashy_probe], as it computes them. *)
Fixpoint path_from (capacity step : Z) (n : nat) (position : Z) : list Z :=
  match n with
  | O => []
  | S n' =>
      position :: path_from capacity step n' ((position + step) mod capacity)
  end.

(** [_hashy_probe] as a function of the array alone. *)
Definition probe_arr (arr : list Slot) (k : key) (is_insert : bool)
    : result Z :=
  let size := Z.of_nat (length arr) in
  position ← hash_loop size k 0 31415;
  step_size ← (value ← hash2_loop size k 0; Return (Z.max 1 value));
  probe_loop arr k is_insert step_size (length arr) position None.

(** [__setitem__] before its load test: the probe and the write. *)
Definition put (t : table) (k : key) (data : V) : result table :=
  position ← _hashy_probe t k true;
  write t position k data.

(** [_rehash] after [self.size_index += 1]. *)
Definition advance (t : table) : table :=
  mkTable (TABLE_SIZES t) (S (size_index t)) (array t) (count t).

(** [_rehash] after [self.array = ArrayR(...)] and [self.count = 0]. *)
Definition alloc (t : table) (n : positive) : table :=
  mkTable (TABLE_SIZES t) (size_index t) (ArrayR n) 0.

(** The table stores [v] under [k]. *)
Definition entry (t : table) (k : key) (v : V) : Prop :=
  exists i : nat, array t !! i = Some (Occupied k v).

(** Every stored key is found by a lookup, at the slot that holds it. *)
Definition findable (t : table) : Prop :=
  forall (i : nat) (k : key) (v : V),
    array t !! i = Some (Occupied k v) ->
    _hashy_probe t k false = Return (Z.of_nat i).

(** No two slots of [items] hold the same key. *)
Definition distinct (items : list Slot) : Prop :=
  forall (i j : nat) (k : key) (v v' : V),
    items !! i = Some (Occupied k v) ->
    items !! j = Some (Occupied k v') ->
    i = j.

Definition is_occupied (s : Slot) : bool :=
  match s with
  | Occupied _ _ => true
  | _ => false
  end.

(** The number of live keys: the Occupied slots. *)
Definition live (arr : list Slot) : Z :=
  Z.of_nat (length (filter (fun s => is_occupied s = true) arr)).

Definition no_tombstone (arr : list Slot) : Prop :=
  forall i : nat, arr !! i <> Some DELETED.

(** The capacity is the entry of the schedule that [size_index] names. *)
Definition on_schedule (t : table) : Prop :=
  exists n : positive,
    TABLE_SIZES t !! size_index t = Some n /\ table_size t = Z.pos n.

(** The table a call leaves behind, whether it returned or raised. *)
Definition leaves (o : outcome) (t' : table) : Prop :=
  o = Ok t' \/ exists e, o = Raise e t'.

(** The states of a table object: built by [__init__], then changed by any
    calls of [__setitem__], [__delitem__] and [_rehash], also by calls that
    raised; and the state of [__setitem__] between its write and its load
    test, which is the state in which it calls [_rehash]. *)
Inductive reachable : table -> Prop :=
  | reachable_init sizes t :
      init sizes = Return t -> reachable t
  | reachable_put t k v tw :
      reachable t -> put t k v = Return tw -> reachable tw
  | reachable_setitem t k v t' :
      reachable t -> leaves (setitem t k v) t' -> reachable t'
  | reachable_delitem t k t' :
      reachable t -> leaves (delitem t k) t' -> reachable t'
  | reachable_rehash t t' :
      reachable t -> leaves (rehash t) t' -> reachable t'.

(** The states reached without [__delitem__], by calls of [__setitem__]
    and [_rehash] that returned. *)
Inductive grown : table -> Prop :=
  | grown_init sizes t :
      init sizes = Return t -> grown t
  | grown_setitem t k v t' :
      grown t -> setitem t k v = Ok t' -> grown t'
  | grown_rehash t t' :
      grown t -> rehash t = Ok t' -> grown t'.

(** The (key, value) pairs of the Occupied slots, in slot order. *)
Definition stored_items (arr : list Slot) : list (key * V) :=
  omap (fun s => match s with Occupied k v => Some (k, v) | _ => None end)
    arr.

(** The states reached by calls none of which raised. *)
Inductive steady : table -> Prop :=
  | steady_init sizes t :
      init sizes = Return t -> steady t
  | steady_setitem t k v t' :
      steady t -> setitem t k v = Ok t' -> steady t'
  | steady_delitem t k t' :
      steady t -> delitem t k = Ok t' -> steady t'
  | steady_rehash t t' :
      steady t -> rehash t = Ok t' -> steady t'.

(** A call of [__setitem__] or of [__delitem__], and the table that a
    sequence of calls leaves when each of them returned. *)
Inductive call : Type :=
  | SetItem (k : key) (v : V)
  | DelItem (k : key).

Definition do_call (c : call) (t : table) : outcome :=
  match c with
  | SetItem k v => setitem t k v
  | DelItem k => delitem t k
  end.

Fixpoint after_calls (calls : list call) (t : table) : option table :=
  match calls with
  | [] => Some t
  | c :: rest =>
      match do_call c t with
      | Ok t' => after_calls rest t'
      | _ => None
      end
  end.

End HashyStepTable.

Arguments Slot : clear implicits.
Arguments table : clear implicits.
Arguments outcome : clear implicits.
Arguments call : clear implicits.

(** ** Comparing teams by name ([team.py])

    [Team.__gt__] and [Team.__lt__] read the two teams only through their
    [name], a string: they are modelled on the names. A call that leaves the
    loop without a [return] returns [None]. *)

(** The [for letter in range(length)] loop of [Team.__gt__] and
    [Team.__lt__]; [cmp] is [>] or [<] on the two [ord]. Both names have a
    character at every [letter] below [length], so that the last case, an
    index out of range, is never met. *)
Fixpoint name_loop (cmp : Z -> Z -> bool) (letters : list nat)
    (self_name other_name : list N) : option bool :=
  match letters with
  | [] => None
  | letter :: rest =>
      match self_name !! letter, other_name !! letter with
      | Some a, Some b =>
          if ord a =? ord b then name_loop cmp rest self_name other_name
          else Some (cmp (ord a) (ord b))
      | _, _ => None
      end
  end.

(** [length]: the smaller of the two [len]. *)
Definition name_length (self_name other_name : list N) : nat :=
  if (List.length other_name <? List.length self_name)%nat
  then List.length other_name
  else List.length self_name.

(** [Team.__gt__] *)
Definition Team_gt (self_name other_name : list N) : option bool :=
  name_loop Z.gtb (seq 0 (name_length self_name other_name))
    self_name other_name.

(** [Team.__lt__] *)
Definition Team_lt (self_name other_name : list N) : option bool :=
  name_loop Z.ltb (seq 0 (name_length self_name other_name))
    self_name other_name.

(** The first characters at which two names differ, if both have one. *)
Fixpoint first_difference (a b : list N) : option (N * N) :=
  match a, b with
  | x :: a', y :: b' =>
      if ord x =? ord y then first_difference a' b' else Some (x, y)
  | _, _ => None
  end.

(** ** Trial division, to show the capacities of the default schedule
    prime *)

(** No [e] with [d <= e < d + fuel] divides [n]. *)
Fixpoint no_divisor (n : Z) (fuel : nat) (d : Z) : bool :=
  match fuel with
  | O => true
  | S fuel' => negb (n mod d =? 0) && no_divisor n fuel' (d + 1)
  end.

(** ** Tables used as examples *)

(** Schedule [[5]] after ["a"], ["b"] and ["c"] were set to 0, 1 and 2. *)
Definition example_abc : table Z :=
  mkTable [5%positive] 0
    [Empty; Empty; Occupied (str "a") 0; Occupied (str "b") 1;
     Occupied (str "c") 2]
    3.

(** The default schedule after ["a"], ["b"] and ["c"] were set to 0, 1 and
    2; the same table after a call of [_rehash]; and after ["d"] was set to
    3 instead, which took it to the second capacity. *)
Definition example_default_abc : table Z :=
  mkTable DEFAULT_TABLE_SIZES 0
    [Empty; Empty; Occupied (str "a") 0; Occupied (str "b") 1;
     Occupied (str "c") 2]
    3.

Definition example_default_abc_grown : table Z :=
  mkTable DEFAULT_TABLE_SIZES 1
    [Empty; Empty; Empty; Empty; Empty; Empty; Occupied (str "a") 0;
     Occupied (str "b") 1; Occupied (str "c") 2; Empty; Empty; Empty; Empty]
    3.

Definition example_default_abcd : table Z :=
  mkTable DEFAULT_TABLE_SIZES 1
    [Empty; Empty; Empty; Empty; Empty; Empty; Occupied (str "a") 0;
     Occupied (str "b") 1; Occupied (str "c") 2; Occupied (str "d") 3;
     Empty; Empty; Empty]
    4.

(** Schedule [[5]] when a call setting ["d"] to 3 in [example_abc] has
    raised [FullError]. *)
Definition example_abcd_full : table Z :=
  mkTable [5%positive] 1
    [Occupied (str "d") 3; Empty; Occupied (str "a") 0;
     Occupied (str "b") 1; Occupied (str "c") 2]
    4.

(** Schedule [[3; 4; 50]] after ["a"] and ["b"] were set to 0, and the same
    table when ["c"] has been written and [_rehash] is about to be called. *)
Definition example_ab : table Z :=
  mkTable [3; 4; 50]%positive 0
    [Empty; Occupied (str "a") 0; Occupied (str "b") 0] 2.

Definition example_cab : table Z :=
  mkTable [3; 4; 50]%positive 0
    [Occupied (str "c") 0; Occupied (str "a") 0; Occupied (str "b") 0] 3.

(** The default schedule after ["a"] was set to 1 and deleted, and after it
    was then set to 2. *)
Definition example_tombstone : table Z :=
  mkTable DEFAULT_TABLE_SIZES 0 [Empty; Empty; DELETED; Empty; Empty] 0.

Definition example_reused : table Z :=
  mkTable DEFAULT_TABLE_SIZES 0
    [Empty; Empty; Occupied (str "a") 2; Empty; Empty] 0.

(** [example_reused] after ["a"] was deleted again. *)
Definition example_deleted_again : table Z :=
  mkTable DEFAULT_TABLE_SIZES 0 [Empty; Empty; DELETED; Empty; Empty] (-1).

(** Schedule [[5]] with its five slots Occupied, as the call that sets
    ["e"] to 4 in [example_abcd_full], and raises [FullError], leaves it. *)
Definition example_full : table Z :=
  mkTable [5%positive] 2
    [Occupied (str "d") 3; Occupied (str "e") 4; Occupied (str "a") 0;
     Occupied (str "b") 1; Occupied (str "c") 2]
    5.

(** The default schedule after ["a"], ["b"] and ["c"] were set, ["a"] was
    deleted and ["d"] was set to 3. *)
Definition example_dbc : table Z :=
  mkTable DEFAULT_TABLE_SIZES 0
    [Occupied (str "d") 3; Empty; DELETED; Occupied (str "b") 1;
     Occupied (str "c") 2]
    3.

(** The default schedule after each of ["a"], ["b"], ["c"], ["d"] and ["e"]
    was set, deleted and set again, in this order. *)
Definition example_default_calls : list (call Z) :=
  [SetItem (str "a") 0; DelItem (str "a"); SetItem (str "a") 0;
   SetItem (str "b") 1; DelItem (str "b"); SetItem (str "b") 1;
   SetItem (str "c") 2; DelItem (str "c"); SetItem (str "c") 2;
   SetItem (str "d") 3; DelItem (str "d"); SetItem (str "d") 3;
   SetItem (str "e") 4; DelItem (str "e"); SetItem (str "e") 4].

Definition example_default_full : table Z :=
  mkTable DEFAULT_TABLE_SIZES 0
    [Occupied (str "d") 3; Occupied (str "e") 4; Occupied (str "a") 0;
     Occupied (str "b") 1; Occupied (str "c") 2]
    0.

(** A fresh table of the schedule [[5]]. *)
Definition example_fresh : table Z := mkTable [5%positive] 0 (ArrayR 5) 0.

(** A fresh table of the schedule [[1]]. *)
Definition example_one : table Z := mkTable [1%positive] 0 [Empty] 0.

(** * Properties *)

Section Facts.

Context {V : Type}.

Implicit Types (t : table V) (arr : list (Slot V)) (k : key).

(** ** Arithmetic of the hash functions *)

Lemma py_mod_Return (a b r : Z) :
  py_mod a b = Return r -> b <> 0 /\ r = a mod b.
Proof.
  unfold py_mod. destruct (Z.eqb_spec b 0); intros H; inversion H; auto.
Qed.

Lemma py_mod_nonzero (a b : Z) : b <> 0 -> py_mod a b = Return (a mod b).
Proof.
  intros Hb. unfold py_mod. destruct (Z.eqb_spec b 0); congruence.
Qed.

Lemma py_mod_zero (a : Z) : py_mod a 0 = Throw ZeroDivisionError.
Proof. reflexivity. Qed.

Lemma hash_loop_total (size : Z) (chars : key) :
  2 <= size -> forall value a, exists h, hash_loop size chars value a = Return h.
Proof.
  intros Hsize. induction chars as [|char rest IH]; intros value a; simpl.
  - eauto.
  - rewrite !py_mod_nonzero by lia. simpl. apply IH.
Qed.

Lemma hash_loop_range (size : Z) (chars : key) :
  forall value a h,
    0 <= value < size ->
    hash_loop size chars value a = Return h ->
    0 <= h < size.
Proof.
  induction chars as [|char rest IH]; intros value a h Hv; simpl.
  - intros [= <-]. exact Hv.
  - destruct (py_mod (ord char + a * value) size) as [value'|e] eqn:E;
      simpl; [|intros ?; discriminate].
    apply py_mod_Return in E as [Hs ->].
    destruct (py_mod (a * HASH_BASE) (size - 1)) as [a'|e];
      simpl; [|intros ?; discriminate].
    apply IH. apply Z.mod_pos_bound. lia.
Qed.

Lemma hash_loop_capacity_one (char : N) (rest : key) (value a : Z) :
  hash_loop 1 (char :: rest) value a = Throw ZeroDivisionError.
Proof. reflexivity. Qed.

Lemma hash_loop_capacity_zero (char : N) (rest : key) (value a : Z) :
  hash_loop 0 (char :: rest) value a = Throw ZeroDivisionError.
Proof. reflexivity. Qed.

Lemma hash2_loop_total (size : Z) (chars : key) :
  size <> 0 -> forall value, exists h, hash2_loop size chars value = Return h.
Proof.
  intros Hsize. induction chars as [|char rest IH]; intros value; simpl.
  - eauto.
  - rewrite py_mod_nonzero by lia. simpl. apply IH.
Qed.

Lemma hash2_loop_range (size : Z) (chars : key) :
  forall value h,
    0 <= value < size ->
    hash2_loop size chars value = Return h ->
    0 <= h < size.
Proof.
  induction chars as [|char rest IH]; intros value h Hv; simpl.
  - intros [= <-]. exact Hv.
  - destruct (py_mod (ord char + value * 37) size) as [value'|e] eqn:E;
      simpl; [|intros ?; discriminate].
    apply py_mod_Return in E as [Hs ->].
    apply IH. apply Z.mod_pos_bound. lia.
Qed.

Lemma hash_range t k (h : Z) :
  hash t k = Return h -> 1 <= table_size t -> 0 <= h < table_size t.
Proof.
  unfold hash. intros H Hsize. eapply hash_loop_range; [|exact H]. lia.
Qed.

Lemma hash2_range t k (s : Z) :
  hash2 t k = Return s ->
  1 <= s /\ (2 <= table_size t -> s < table_size t).
Proof.
  unfold hash2. destruct (hash2_loop (table_size t) k 0) as [value|e] eqn:E;
    simpl; [|intros ?; discriminate].
  intros [= <-]. split; [lia|]. intros Hsize.
  apply hash2_loop_range in E; lia.
Qed.

Lemma table_size_nonneg t : 0 <= table_size t.
Proof. unfold table_size. lia. Qed.

End Facts.

Section Probing.

Context {V : Type}.

Implicit Types (t : table V) (arr : list (Slot V)) (k : key) (s : Slot V).

(** ** The backing array *)

Lemma ArrayR_get_Return arr (i : Z) s :
  ArrayR_get arr i = Return s <-> 0 <= i /\ arr !! Z.to_nat i = Some s.
Proof.
  unfold ArrayR_get. destruct (Z.ltb_spec i 0).
  - split; [discriminate | lia].
  - destruct (arr !! Z.to_nat i) as [s'|]; split.
    + intros [= ->]. auto.
    + intros [_ [= ->]]. reflexivity.
    + discriminate.
    + intros [_ [=]].
Qed.

Lemma ArrayR_get_in_range arr (i : Z) :
  0 <= i < Z.of_nat (length arr) -> exists s, ArrayR_get arr i = Return s.
Proof.
  intros Hi. destruct (lookup_lt_is_Some_2 arr (Z.to_nat i)) as [s Hs]; [lia|].
  exists s. apply ArrayR_get_Return. split; [lia | exact Hs].
Qed.

Lemma ArrayR_get_lt arr (i : Z) s :
  ArrayR_get arr i = Return s -> 0 <= i < Z.of_nat (length arr).
Proof.
  intros [H0 H]%ArrayR_get_Return. apply lookup_lt_Some in H. lia.
Qed.

Lemma ArrayR_set_length arr (i : Z) s :
  length (ArrayR_set arr i s) = length arr.
Proof. apply length_insert. Qed.

Lemma ArrayR_get_set_eq arr (i : Z) s :
  0 <= i < Z.of_nat (length arr) ->
  ArrayR_get (ArrayR_set arr i s) i = Return s.
Proof.
  intros Hi. apply ArrayR_get_Return. split; [lia|].
  apply list_lookup_insert_eq. lia.
Qed.

Lemma ArrayR_get_set_ne arr (i j : Z) s :
  0 <= i -> 0 <= j -> i <> j ->
  ArrayR_get (ArrayR_set arr i s) j = ArrayR_get arr j.
Proof.
  intros Hi Hj Hne. unfold ArrayR_get, ArrayR_set.
  rewrite list_lookup_insert_ne by lia. reflexivity.
Qed.

Lemma key_eqb_eq k1 k2 : key_eqb k1 k2 = true <-> k1 = k2.
Proof. unfold key_eqb. apply bool_decide_eq_true. Qed.

Lemma key_eqb_neq k1 k2 : key_eqb k1 k2 = false <-> k1 <> k2.
Proof. unfold key_eqb. apply bool_decide_eq_false. Qed.

Lemma key_eqb_refl k : key_eqb k k = true.
Proof. by apply key_eqb_eq. Qed.


(** ** The probe loop *)

Ltac probe_step pos :=
  simpl;
  let Eget := fresh "Eget" in
  let Ek := fresh "Ek" in
  destruct (ArrayR_get _ pos) as [[| |? ?]|?] eqn:Eget; simpl;
  [ | | destruct (key_eqb _ _) eqn:Ek | ].

Lemma probe_lookup_first_deleted arr k (step : Z) n :
  forall position fd,
    probe_loop arr k false step n position fd
    = probe_loop arr k false step n position None.
Proof.
  induction n as [|n IH]; intros position fd.
  - by destruct fd.
  - probe_step position; auto.
    rewrite IH. symmetry. apply IH.
Qed.

Lemma probe_lookup_found arr k (step : Z) n :
  forall position fd p,
    probe_loop arr k false step n position fd = Return p ->
    exists v, ArrayR_get arr p = Return (Occupied k v).
Proof.
  induction n as [|n IH]; intros position fd p.
  - by destruct fd.
  - probe_step position; try discriminate; eauto.
    intros [= <-]. apply key_eqb_eq in Ek as ->. eauto.
Qed.

Lemma probe_insert_of_lookup arr k (step : Z) n :
  forall position fd fd' p,
    probe_loop arr k false step n position fd = Return p ->
    probe_loop arr k true step n position fd' = Return p.
Proof.
  induction n as [|n IH]; intros position fd fd' p.
  - by destruct fd.
  - probe_step position; try discriminate; eauto.
Qed.

(** With a tombstone on record, an insert probe ends on it unless it finds
    the key. *)
Lemma probe_insert_recorded arr k (step : Z) n :
  forall position d p,
    probe_loop arr k true step n position (Some d) = Return p ->
    p = d \/ probe_loop arr k false step n position None = Return p.
Proof.
  induction n as [|n IH]; intros position d p.
  - simpl. intros [= <-]. by left.
  - probe_step position; try discriminate; eauto.
    + intros [= <-]. by left.
    + rewrite (probe_lookup_first_deleted _ _ _ _ _ (Some position)). apply IH.
Qed.

Lemma probe_insert_claimable arr k (step : Z) n :
  forall position p,
    probe_loop arr k true step n position None = Return p ->
    exists s, ArrayR_get arr p = Return s /\ claimable k s.
Proof.
  induction n as [|n IH]; intros position p.
  - discriminate.
  - probe_step position; try discriminate; eauto.
    + intros [= <-]. exists Empty. by split.
    + intros [->|H]%probe_insert_recorded.
      * exists DELETED. by split.
      * apply probe_lookup_found in H as [v Hv]. exists (Occupied k v). by split.
    + intros [= <-]. apply key_eqb_eq in Ek as ->. eexists. by split.
Qed.

(** A lookup reads the array only through the views of its slots. *)
Lemma probe_lookup_congr arr arr' k (step : Z) n :
  length arr = length arr' ->
  (forall i, view_at arr k i = view_at arr' k i) ->
  forall position fd fd',
    probe_loop arr k false step n position fd
    = probe_loop arr' k false step n position fd'.
Proof.
  intros Hlen Hview. induction n as [|n IH]; intros position fd fd'.
  - by destruct fd, fd'.
  - simpl. specialize (Hview position). unfold view_at in Hview.
    rewrite <- Hlen.
    destruct (ArrayR_get arr position) as [[| |k1 v1]|e1];
      destruct (ArrayR_get arr' position) as [[| |k2 v2]|e2];
      simpl in *;
      repeat match goal with
             | H : context [key_eqb ?a ?b] |- _ => destruct (key_eqb a b)
             end;
      try discriminate; auto.
    congruence.
Qed.

Lemma view_at_set arr k (p : Z) s s' :
  ArrayR_get arr p = Return s ->
  view_of k s' = view_of k s ->
  forall i, view_at (ArrayR_set arr p s') k i = view_at arr k i.
Proof.
  intros Hp Hv i. unfold view_at.
  destruct (Z.eq_dec i p) as [->|Hne].
  - rewrite ArrayR_get_set_eq by (eapply ArrayR_get_lt; eauto).
    rewrite Hp. simpl. by rewrite Hv.
  - destruct (Z.ltb_spec i 0) as [Hi|Hi].
    + unfold ArrayR_get. destruct (Z.ltb_spec i 0); [done | lia].
    + rewrite ArrayR_get_set_ne; [done | | done | done].
      eapply ArrayR_get_lt; eauto.
Qed.

Lemma probe_lookup_set_same_view arr k (step : Z) n (p : Z) s s' :
  ArrayR_get arr p = Return s ->
  view_of k s' = view_of k s ->
  forall position fd,
    probe_loop (ArrayR_set arr p s') k false step n position fd
    = probe_loop arr k false step n position fd.
Proof.
  intros Hp Hv position fd. apply probe_lookup_congr.
  - apply ArrayR_set_length.
  - eapply view_at_set; eauto.
Qed.

(** Filling an Empty slot leaves every successful lookup as it was: a
    lookup that found its key never came across that slot. *)
Lemma probe_lookup_fill_empty arr k (step : Z) n (p : Z) s' :
  ArrayR_get arr p = Return Empty ->
  forall position fd i,
    probe_loop arr k false step n position fd = Return i ->
    probe_loop (ArrayR_set arr p s') k false step n position fd = Return i.
Proof.
  intros Hp. pose proof (ArrayR_get_lt _ _ _ Hp) as Hrange.
  induction n as [|n IH]; intros position fd i.
  - by destruct fd.
  - simpl. rewrite ArrayR_set_length.
    destruct (ArrayR_get arr position) as [s|e] eqn:Eget; simpl;
      [|discriminate].
    assert (position <> p \/ s = Empty) as [Hne| ->].
    { destruct (Z.eq_dec position p) as [->|]; [right; congruence | by left]. }
    + rewrite ArrayR_get_set_ne; [| lia | eapply ArrayR_get_lt; eauto | done].
      rewrite Eget. simpl. destruct s as [| |k' v']; auto.
      destruct (key_eqb k' k); auto.
    + discriminate.
Qed.


(** After [self.array[position] = (key, data)] at the position an insert
    probe returned, a lookup of the key ends there. *)
Lemma probe_write_lookup arr k (step : Z) n (v : V) :
  forall position p,
    probe_loop arr k true step n position None = Return p ->
    probe_loop (ArrayR_set arr p (Occupied k v)) k false step n position None
    = Return p.
Proof.
  induction n as [|n IH]; intros position p H; [discriminate|].
  destruct (probe_insert_claimable _ _ _ _ _ _ H) as (s0 & Hp & Hclaim).
  pose proof (ArrayR_get_lt _ _ _ Hp) as Hrange.
  assert (Hhit : position = p ->
    probe_loop (ArrayR_set arr p (Occupied k v)) k false step (S n) position
      None = Return p).
  { intros ->. simpl. rewrite ArrayR_get_set_eq by done. simpl.
    by rewrite key_eqb_refl. }
  revert H. simpl. destruct (ArrayR_get arr position) as [s|e] eqn:Eget;
    simpl; [|discriminate].
  pose proof (ArrayR_get_lt _ _ _ Eget) as Hposition.
  destruct s as [| |k' v'].
  - intros [= <-]. by apply Hhit.
  - intros [->|Hfound]%probe_insert_recorded; [by apply Hhit|].
    destruct (probe_lookup_found _ _ _ _ _ _ _ Hfound) as [v0 Hv0].
    assert (position <> p) by congruence.
    rewrite ArrayR_set_length, ArrayR_get_set_ne by lia.
    rewrite Eget. simpl.
    rewrite (probe_lookup_first_deleted _ _ _ _ _ (Some position)).
    erewrite probe_lookup_set_same_view; eauto.
  - destruct (key_eqb k' k) eqn:Ek.
    + intros [= <-]. by apply Hhit.
    + intros H. assert (position <> p).
      { intros ->. rewrite Hp in Eget. injection Eget as ->. simpl in Hclaim.
        apply key_eqb_neq in Ek. done. }
      rewrite ArrayR_set_length, ArrayR_get_set_ne by lia.
      rewrite Eget. simpl. rewrite Ek. by apply IH.
Qed.

(** Positions stay inside the array, so the only failures of a probe are
    those it raises itself. *)
Lemma next_position_range arr (position step : Z) :
  0 <= position < Z.of_nat (length arr) ->
  0 <= (position + step) mod Z.of_nat (length arr) < Z.of_nat (length arr).
Proof. intros H. apply Z.mod_pos_bound. lia. Qed.

Lemma probe_lookup_Throw arr k (step : Z) n :
  forall position fd e,
    0 <= position < Z.of_nat (length arr) ->
    probe_loop arr k false step n position fd = Throw e ->
    e = KeyError.
Proof.
  induction n as [|n IH]; intros position fd e Hrange.
  - destruct fd; simpl; congruence.
  - destruct (ArrayR_get_in_range _ _ Hrange) as [s Hs].
    simpl. rewrite Hs. simpl.
    pose proof (next_position_range arr position step Hrange).
    destruct s as [| |k' v']; [congruence | eauto |].
    destruct (key_eqb k' k); [discriminate | eauto].
Qed.

Lemma probe_insert_Throw arr k (step : Z) n :
  forall position fd e,
    0 <= position < Z.of_nat (length arr) ->
    probe_loop arr k true step n position fd = Throw e ->
    e = FullError /\ fd = None.
Proof.
  induction n as [|n IH]; intros position fd e Hrange.
  - destruct fd; simpl; [discriminate|]. intros [= <-]. done.
  - destruct (ArrayR_get_in_range _ _ Hrange) as [s Hs].
    simpl. rewrite Hs. simpl.
    pose proof (next_position_range arr position step Hrange) as Hnext.
    destruct s as [| |k' v']; [discriminate | |].
    + intros H. apply IH in H as [-> H]; [|done]. by destruct fd.
    + destruct (key_eqb k' k); [discriminate | eauto].
Qed.

Lemma probe_insert_recorded_Return arr k (step : Z) n (position d : Z) :
  0 <= position < Z.of_nat (length arr) ->
  exists p, probe_loop arr k true step n position (Some d) = Return p.
Proof.
  intros Hrange.
  destruct (probe_loop arr k true step n position (Some d)) as [p|e] eqn:E;
    [eauto|].
  apply probe_insert_Throw in E as [_ [=]]. done.
Qed.

(** Once the key has been deleted, an insert probe for it ends on a
    tombstone, or on [first_deleted] if it started with one (the third case,
    a second copy of the key, is excluded by the table invariant below). *)
Lemma probe_insert_after_delete arr k (step : Z) n (p : Z) :
  forall position fd,
    0 <= position < Z.of_nat (length arr) ->
    probe_loop arr k false step n position None = Return p ->
    exists q,
      probe_loop (ArrayR_set arr p DELETED) k true step n position fd
      = Return q
      /\ (fd = Some q
          \/ ArrayR_get (ArrayR_set arr p DELETED) q = Return DELETED
          \/ exists v,
               ArrayR_get (ArrayR_set arr p DELETED) q
               = Return (Occupied k v)).
Proof.
  induction n as [|n IH]; intros position fd Hrange H; [discriminate|].
  destruct (probe_lookup_found _ _ _ _ _ _ _ H) as [v0 Hp].
  pose proof (ArrayR_get_lt _ _ _ Hp) as Hprange.
  pose proof (next_position_range arr position step Hrange) as Hnext.
  revert H. simpl. rewrite ArrayR_set_length.
  destruct (ArrayR_get arr position) as [s|e] eqn:Eget; simpl;
    [|discriminate].
  assert (Hdel : ArrayR_get (ArrayR_set arr p DELETED) p = Return DELETED)
    by (by apply ArrayR_get_set_eq).
  destruct s as [| |k' v']; [discriminate | |].
  - intros H. assert (position <> p) by congruence.
    rewrite ArrayR_get_set_ne by lia. rewrite Eget. simpl.
    rewrite (probe_lookup_first_deleted _ _ _ _ _ (Some position)) in H.
    destruct (IH _ (match fd with None => Some position | Some d => Some d end)
                Hnext H) as (q & Hq & Hcase).
    exists q. split; [done|].
    destruct fd as [d|]; [done|].
    destruct Hcase as [[= <-]|Hcase]; [|by right].
    right. left. rewrite ArrayR_get_set_ne by lia. done.
  - destruct (key_eqb k' k) eqn:Ek.
    + intros [= <-]. rewrite Hdel. simpl.
      set (fd' := match fd with None => Some position | Some d => Some d end).
      assert (exists d, fd' = Some d /\ (fd = Some d \/ d = position))
        as (d & -> & Hd) by (destruct fd; subst fd'; eauto).
      destruct (probe_insert_recorded_Return (ArrayR_set arr position DELETED)
                  k step n ((position + step) mod Z.of_nat (length arr)) d)
        as [q Hq]; [by rewrite ArrayR_set_length|].
      exists q. split; [done|].
      apply probe_insert_recorded in Hq as [->|Hfound].
      * destruct Hd as [->| ->]; auto.
      * right. right. eapply probe_lookup_found; eauto.
    + intros H. assert (position <> p).
      { intros ->. rewrite Hp in Eget. injection Eget as <- _.
        by rewrite key_eqb_refl in Ek. }
      rewrite ArrayR_get_set_ne by lia. rewrite Eget. simpl. rewrite Ek.
      by apply IH.
Qed.

End Probing.

Section Tables.

Context {V : Type}.

Implicit Types (t : table V) (arr : list (Slot V)) (k : key) (s : Slot V).

(** ** Probing an array *)

Lemma _hashy_probe_arr t k (b : bool) :
  _hashy_probe t k b = probe_arr (array t) k b.
Proof.
  unfold _hashy_probe, probe_arr, hash, hash2, table_size.
  by rewrite Nat2Z.id.
Qed.

(** Opens [probe_arr] on the arrays of the goal, which have one length. *)
Ltac probe_arr_open h step Eh :=
  unfold probe_arr; rewrite ?ArrayR_set_length;
  destruct (hash_loop _ _ 0 31415) as [h|?] eqn:Eh; simpl;
  [ destruct (hash2_loop _ _ 0) as [step|?]; simpl | ];
  try discriminate; try done.

Lemma probe_arr_found arr k (p : Z) :
  probe_arr arr k false = Return p ->
  exists v, ArrayR_get arr p = Return (Occupied k v).
Proof. probe_arr_open h step Eh. apply probe_lookup_found. Qed.

Lemma probe_arr_insert_of_lookup arr k (p : Z) :
  probe_arr arr k false = Return p -> probe_arr arr k true = Return p.
Proof. probe_arr_open h step Eh. apply probe_insert_of_lookup. Qed.

Lemma probe_arr_claimable arr k (p : Z) :
  probe_arr arr k true = Return p ->
  exists s, ArrayR_get arr p = Return s /\ claimable k s.
Proof. probe_arr_open h step Eh. apply probe_insert_claimable. Qed.

Lemma probe_arr_write_lookup arr k (p : Z) (v : V) :
  probe_arr arr k true = Return p ->
  probe_arr (ArrayR_set arr p (Occupied k v)) k false = Return p.
Proof. probe_arr_open h step Eh. apply probe_write_lookup. Qed.

Lemma probe_arr_set_same_view arr k (p : Z) s s' :
  ArrayR_get arr p = Return s ->
  view_of k s' = view_of k s ->
  probe_arr (ArrayR_set arr p s') k false = probe_arr arr k false.
Proof.
  intros Hp Hv. probe_arr_open h step Eh.
  by eapply probe_lookup_set_same_view.
Qed.

Lemma probe_arr_fill_empty arr k (p i : Z) s' :
  ArrayR_get arr p = Return Empty ->
  probe_arr arr k false = Return i ->
  probe_arr (ArrayR_set arr p s') k false = Return i.
Proof.
  intros Hp. probe_arr_open h step Eh. by apply probe_lookup_fill_empty.
Qed.

Lemma hash_loop_start arr k (h : Z) :
  hash_loop (Z.of_nat (length arr)) k 0 31415 = Return h ->
  arr <> [] ->
  0 <= h < Z.of_nat (length arr).
Proof.
  intros Hh Harr. eapply hash_loop_range; [|exact Hh].
  destruct arr; [done | simpl; lia].
Qed.

(** A lookup that gets past the hash functions fails only with [KeyError]. *)
Lemma probe_arr_lookup_Throw arr arr' k (b : bool) (p : Z) (e : exn) :
  probe_arr arr k b = Return p ->
  length arr' = length arr ->
  probe_arr arr' k false = Throw e ->
  e = KeyError.
Proof.
  intros Hp Hlen. revert Hp. unfold probe_arr. rewrite Hlen.
  destruct (hash_loop _ _ 0 31415) as [h|?] eqn:Eh; simpl; [|done].
  destruct (hash2_loop _ _ 0) as [step|?]; simpl; [|done].
  intros _. rewrite <- Hlen. rewrite <- Hlen in Eh.
  destruct arr' as [|s0 arr0]; [simpl; congruence|].
  intros H. eapply probe_lookup_Throw; [|exact H].
  by apply (hash_loop_start _ k).
Qed.

Lemma probe_arr_insert_after_delete arr k (p : Z) :
  probe_arr arr k false = Return p ->
  exists q,
    probe_arr (ArrayR_set arr p DELETED) k true = Return q
    /\ (ArrayR_get (ArrayR_set arr p DELETED) q = Return DELETED
        \/ exists v,
             ArrayR_get (ArrayR_set arr p DELETED) q = Return (Occupied k v)).
Proof.
  intros Hp. destruct (probe_arr_found _ _ _ Hp) as [v0 Hv0].
  assert (arr <> []) as Harr.
  { intros ->. apply ArrayR_get_lt in Hv0. simpl in Hv0. lia. }
  revert Hp. probe_arr_open h step Eh. intros Hp.
  destruct (probe_insert_after_delete arr k (Z.max 1 step) (length arr) p h
              None) as (q & Hq & Hcase).
  - by apply (hash_loop_start _ k).
  - done.
  - exists q. split; [done|]. by destruct Hcase as [[=]|Hcase].
Qed.


(** ** The write of [__setitem__] *)

Lemma put_Return t k (v : V) tw :
  put t k v = Return tw ->
  exists (p : Z) s0,
    _hashy_probe t k true = Return p
    /\ ArrayR_get (array t) p = Return s0
    /\ claimable k s0
    /\ tw = mkTable (TABLE_SIZES t) (size_index t)
              (ArrayR_set (array t) p (Occupied k v))
              (match s0 with Empty => count t + 1 | _ => count t end).
Proof.
  unfold put. destruct (_hashy_probe t k true) as [p|e] eqn:Ep; simpl;
    [|done].
  pose proof Ep as Hc. rewrite _hashy_probe_arr in Hc.
  apply probe_arr_claimable in Hc as (s0 & Hs0 & Hc).
  unfold write. rewrite Hs0. simpl. intros [= <-].
  exists p, s0. done.
Qed.

Lemma put_Throw t k (v : V) (e : exn) :
  put t k v = Throw e <-> _hashy_probe t k true = Throw e.
Proof.
  unfold put. destruct (_hashy_probe t k true) as [p|e'] eqn:Ep; simpl;
    [|split; by intros [= ->]].
  rewrite _hashy_probe_arr in Ep.
  apply probe_arr_claimable in Ep as (s0 & Hs0 & Hc).
  unfold write. rewrite Hs0. simpl. split; discriminate.
Qed.

Lemma put_table_size t k (v : V) tw :
  put t k v = Return tw -> table_size tw = table_size t.
Proof.
  intros (p & s0 & _ & _ & _ & ->)%put_Return.
  unfold table_size. simpl. by rewrite ArrayR_set_length.
Qed.

(** ** Every stored key is found *)

Lemma findable_distinct t : findable t -> distinct (array t).
Proof.
  intros Hf i j k v v' Hi Hj.
  apply Hf in Hi. apply Hf in Hj. rewrite Hi in Hj.
  injection Hj. lia.
Qed.

Lemma findable_put t k (v : V) tw :
  findable t -> put t k v = Return tw -> findable tw.
Proof.
  intros Hf (p & s0 & Hp & Hs0 & Hclaim & ->)%put_Return i k' v'. simpl.
  rewrite _hashy_probe_arr in *. simpl.
  pose proof (ArrayR_get_lt _ _ _ Hs0) as Hrange.
  destruct (decide (i = Z.to_nat p)) as [->|Hne].
  - unfold ArrayR_set. rewrite list_lookup_insert_eq by lia.
    intros [= <- <-]. rewrite Z2Nat.id by lia.
    by apply probe_arr_write_lookup.
  - unfold ArrayR_set at 1. rewrite list_lookup_insert_ne by done.
    intros Hi. pose proof (Hf _ _ _ Hi) as Hk'.
    rewrite _hashy_probe_arr in Hk'.
    destruct s0 as [| |k0 v0].
    + by apply probe_arr_fill_empty.
    + erewrite probe_arr_set_same_view; [done | done |].
      simpl. destruct (key_eqb k k') eqn:Ek; [|done].
      apply key_eqb_eq in Ek as ->.
      apply probe_arr_insert_of_lookup in Hk'. rewrite Hp in Hk'.
      injection Hk' as ->. lia.
    + simpl in Hclaim. subst k0.
      erewrite probe_arr_set_same_view; done.
Qed.

Lemma findable_delitem t k t' :
  findable t -> delitem t k = Ok t' -> findable t'.
Proof.
  intros Hf. unfold delitem.
  destruct (_hashy_probe t k false) as [p|e] eqn:Ep; [|done].
  intros [= <-] i k' v'. simpl.
  rewrite _hashy_probe_arr in *. simpl.
  destruct (probe_arr_found _ _ _ Ep) as [v0 Hv0].
  pose proof (ArrayR_get_lt _ _ _ Hv0) as Hrange.
  destruct (decide (i = Z.to_nat p)) as [->|Hne].
  - unfold ArrayR_set. rewrite list_lookup_insert_eq by lia. done.
  - unfold ArrayR_set at 1. rewrite list_lookup_insert_ne by done.
    intros Hi. pose proof (Hf _ _ _ Hi) as Hk'.
    rewrite _hashy_probe_arr in Hk'.
    erewrite probe_arr_set_same_view; [done | done |].
    simpl. destruct (key_eqb k k') eqn:Ek; [|done].
    apply key_eqb_eq in Ek as ->. rewrite Ep in Hk'.
    injection Hk' as ->. lia.
Qed.

Lemma findable_array t t' : array t' = array t -> findable t -> findable t'.
Proof.
  intros Harr Hf i k v. rewrite _hashy_probe_arr, Harr.
  intros Hi. rewrite <- _hashy_probe_arr. exact (Hf _ _ _ Hi).
Qed.

Lemma findable_alloc t (n : positive) : findable (alloc t n).
Proof.
  intros i k v. simpl. unfold ArrayR.
  intros [[=] _]%lookup_replicate_1.
Qed.

(** ** The entries of a table *)

Lemma getitem_entry t k (v : V) : getitem t k = Return v -> entry t k v.
Proof.
  unfold getitem. destruct (_hashy_probe t k false) as [p|e] eqn:Ep; simpl;
    [|done].
  rewrite _hashy_probe_arr in Ep.
  apply probe_arr_found in Ep as [v0 Hv0].
  rewrite Hv0. simpl. intros [= <-].
  apply ArrayR_get_Return in Hv0 as [_ Hv0]. by exists (Z.to_nat p).
Qed.

Lemma entry_getitem t k (v : V) :
  findable t -> entry t k v -> getitem t k = Return v.
Proof.
  intros Hf [i Hi]. unfold getitem. rewrite (Hf _ _ _ Hi). simpl.
  unfold ArrayR_get. destruct (Z.ltb_spec (Z.of_nat i) 0); [lia|].
  by rewrite Nat2Z.id, Hi.
Qed.

Lemma put_entry t k (v : V) tw :
  findable t -> put t k v = Return tw ->
  forall k' v',
    entry tw k' v' <-> (k' = k /\ v' = v) \/ (k' <> k /\ entry t k' v').
Proof.
  intros Hf (p & s0 & Hp & Hs0 & Hclaim & ->)%put_Return k' v'.
  pose proof (ArrayR_get_lt _ _ _ Hs0) as Hrange.
  apply ArrayR_get_Return in Hs0 as [_ Hs0].
  unfold entry. simpl. unfold ArrayR_set. split.
  - intros [i Hi]. destruct (decide (i = Z.to_nat p)) as [->|Hne].
    + rewrite list_lookup_insert_eq in Hi by lia. injection Hi as <- <-.
      by left.
    + rewrite list_lookup_insert_ne in Hi by done. right.
      split; [|by exists i]. intros ->.
      apply Hf in Hi. rewrite _hashy_probe_arr in Hi, Hp.
      apply probe_arr_insert_of_lookup in Hi. rewrite Hp in Hi.
      injection Hi as ->. lia.
  - intros [[-> ->]|[Hne [i Hi]]].
    + exists (Z.to_nat p). apply list_lookup_insert_eq. lia.
    + exists i. rewrite list_lookup_insert_ne; [done|].
      intros <-. rewrite Hs0 in Hi. injection Hi as ->. done.
Qed.

End Tables.

Section Calls.

Context {V : Type}.

Implicit Types (t : table V) (arr items : list (Slot V)) (k : key)
  (s : Slot V) (o : outcome V) (set : table V -> key -> V -> outcome V).

(** ** The shape of [__setitem__] and [_rehash] *)

Lemma setitem_fuel_put fuel t k (v : V) :
  setitem_fuel fuel t k v
  = match put t k v with
    | Throw e => Raise e t
    | Return tw =>
        if count tw <? 0 then Raise ValueError tw
        else if over_load tw
             then match fuel with
                  | O => OutOfFuel
                  | S fuel' => rehash_with (setitem_fuel fuel') tw
                  end
             else Ok tw
    end.
Proof.
  unfold put. destruct fuel; simpl;
    destruct (_hashy_probe t k true); simpl; try done;
    destruct (write t a k v) as [tw|e]; try done;
    unfold builtin_len, len; by destruct (count tw <? 0).
Qed.

Lemma rehash_with_advance set t :
  rehash_with set t
  = if (length (TABLE_SIZES t) <=? S (size_index t))%nat
    then Raise FullError (advance t)
    else match TABLE_SIZES t !! S (size_index t) with
         | None => Raise IndexError (advance t)
         | Some n => reinsert set (array t) (alloc (advance t) n)
         end.
Proof. reflexivity. Qed.

Lemma leaves_Ok t t' : leaves (Ok t) t' <-> t' = t.
Proof.
  split; [|intros ->; by left].
  intros [[= ->]|[e [=]]]. done.
Qed.

Lemma leaves_Raise (e : exn) t t' : leaves (Raise e t) t' <-> t' = t.
Proof.
  split; [|intros ->; right; by exists e].
  intros [[=]|[e' [= _ ->]]]. done.
Qed.

Lemma leaves_OutOfFuel t' : ~ leaves (@OutOfFuel V) t'.
Proof. intros [[=]|[e [=]]]. Qed.

(** ** Invariants of every state a call leaves behind *)

Section Invariant.

Variable P : table V -> Prop.

Hypothesis P_put : forall t k v tw, P t -> put t k v = Return tw -> P tw.
Hypothesis P_advance : forall t, P t -> P (advance t).
Hypothesis P_alloc : forall t n, P t -> P (alloc t n).

Lemma reinsert_invariant set items :
  (forall t k v t', P t -> leaves (set t k v) t' -> P t') ->
  forall t t', P t -> leaves (reinsert set items t) t' -> P t'.
Proof.
  intros Hset. induction items as [|[| |k v] rest IH]; intros t t' Ht; simpl.
  - by intros ->%leaves_Ok.
  - by apply IH.
  - by intros ->%leaves_Raise.
  - destruct (set t k v) as [t1|e t1|] eqn:E.
    + apply IH. apply (Hset t k v); [done|]. rewrite E. by apply leaves_Ok.
    + intros ->%leaves_Raise. apply (Hset t k v); [done|].
      rewrite E. by apply leaves_Raise.
    + by intros ?%leaves_OutOfFuel.
Qed.

Lemma rehash_with_invariant set :
  (forall t k v t', P t -> leaves (set t k v) t' -> P t') ->
  forall t t', P t -> leaves (rehash_with set t) t' -> P t'.
Proof.
  intros Hset t t' Ht. rewrite rehash_with_advance.
  destruct (_ <=? _)%nat; [intros ->%leaves_Raise; auto|].
  destruct (TABLE_SIZES t !! S (size_index t)) as [n|];
    [|intros ->%leaves_Raise; auto].
  apply reinsert_invariant; auto.
Qed.

Lemma setitem_fuel_invariant fuel :
  forall t k v t', P t -> leaves (setitem_fuel fuel t k v) t' -> P t'.
Proof.
  induction fuel as [|fuel IH]; intros t k v t' Ht;
    rewrite setitem_fuel_put;
    destruct (put t k v) as [tw|e] eqn:Eput;
    try (by intros ->%leaves_Raise);
    (destruct (count tw <? 0); [intros ->%leaves_Raise; eauto|]);
    (destruct (over_load tw); [|intros ->%leaves_Ok; eauto]).
  - by intros ?%leaves_OutOfFuel.
  - apply rehash_with_invariant; eauto.
Qed.

Lemma setitem_invariant t k v t' : P t -> leaves (setitem t k v) t' -> P t'.
Proof. apply setitem_fuel_invariant. Qed.

Lemma rehash_invariant t t' : P t -> leaves (rehash t) t' -> P t'.
Proof. apply rehash_with_invariant. apply setitem_fuel_invariant. Qed.

End Invariant.

(** ** Invariants of the states of calls that return *)

Section Returned.

Variable P : table V -> Prop.

Hypothesis P_put : forall t k v tw, P t -> put t k v = Return tw -> P tw.
Hypothesis P_alloc :
  forall t n, TABLE_SIZES t !! size_index t = Some n -> P (alloc t n).

Lemma reinsert_returned set items :
  (forall t k v t', P t -> set t k v = Ok t' -> P t') ->
  forall t t', P t -> reinsert set items t = Ok t' -> P t'.
Proof.
  intros Hset. induction items as [|[| |k v] rest IH]; intros t t' Ht; simpl.
  - by intros [= <-].
  - by apply IH.
  - done.
  - destruct (set t k v) as [t1|e t1|] eqn:E; [|done|done].
    apply IH. by apply (Hset t k v).
Qed.

Lemma rehash_with_returned set :
  (forall t k v t', P t -> set t k v = Ok t' -> P t') ->
  forall t t', rehash_with set t = Ok t' -> P t'.
Proof.
  intros Hset t t'. rewrite rehash_with_advance.
  destruct (_ <=? _)%nat; [done|].
  destruct (TABLE_SIZES t !! S (size_index t)) as [n|] eqn:En; [|done].
  apply reinsert_returned; auto.
Qed.

Lemma setitem_fuel_returned fuel :
  forall t k v t', P t -> setitem_fuel fuel t k v = Ok t' -> P t'.
Proof.
  induction fuel as [|fuel IH]; intros t k v t' Ht;
    rewrite setitem_fuel_put;
    destruct (put t k v) as [tw|e] eqn:Eput; try done;
    (destruct (count tw <? 0); [done|]);
    (destruct (over_load tw); [|intros [= <-]; eauto]).
  - done.
  - apply rehash_with_returned; eauto.
Qed.

Lemma rehash_returned t t' : rehash t = Ok t' -> P t'.
Proof. apply rehash_with_returned. apply setitem_fuel_returned. Qed.

End Returned.


(** ** What the calls keep *)

Lemma init_Return sizes t :
  init sizes = Return t ->
  exists n : positive,
    TABLE_SIZES t !! 0%nat = Some n
    /\ t = mkTable (TABLE_SIZES t) 0 (ArrayR n) 0.
Proof.
  unfold init.
  destruct (_ !! 0%nat) as [n|] eqn:En; [|done].
  intros [= <-]. by exists n.
Qed.

Lemma findable_fresh (sizes : list positive) (i : nat) (n : positive)
    (c : Z) :
  findable (mkTable sizes i (ArrayR (V:=V) n) c).
Proof. apply (findable_alloc (mkTable sizes i [] c) n). Qed.

Lemma setitem_fuel_findable fuel t k (v : V) t' :
  findable t -> leaves (setitem_fuel fuel t k v) t' -> findable t'.
Proof.
  apply setitem_fuel_invariant.
  - apply findable_put.
  - intros t0. by apply findable_array.
  - intros t0 n _. apply findable_alloc.
Qed.

Lemma rehash_findable t t' :
  findable t -> leaves (rehash t) t' -> findable t'.
Proof.
  apply rehash_invariant.
  - apply findable_put.
  - intros t0. by apply findable_array.
  - intros t0 n _. apply findable_alloc.
Qed.

Lemma delitem_leaves t k t' :
  leaves (delitem t k) t' -> delitem t k = Ok t' \/ t' = t.
Proof.
  unfold delitem. destruct (_hashy_probe t k false).
  - intros ->%leaves_Ok. by left.
  - intros ->%leaves_Raise. by right.
Qed.

(** Every state of a table object keeps its stored keys findable. *)
Lemma reachable_findable t : reachable t -> findable t.
Proof.
  induction 1 as [sizes t Hinit|t k v tw _ IH Hput|t k v t' _ IH Hset
                 |t k t' _ IH Hdel|t t' _ IH Hre].
  - apply init_Return in Hinit as (n & _ & ->). apply findable_fresh.
  - by eapply findable_put.
  - by eapply setitem_fuel_findable.
  - apply delitem_leaves in Hdel as [Hdel| ->]; [|done].
    by eapply findable_delitem.
  - by eapply rehash_findable.
Qed.

Lemma steady_after_calls (calls : list (call V)) :
  forall t t', steady t -> after_calls calls t = Some t' -> steady t'.
Proof.
  induction calls as [|[k v|k] rest IH]; intros t t' Ht; simpl.
  - by intros [= <-].
  - destruct (setitem t k v) as [t1| |] eqn:E; [|done|done].
    apply IH. by eapply steady_setitem.
  - destruct (delitem t k) as [t1| |] eqn:E; [|done|done].
    apply IH. by eapply steady_delitem.
Qed.

Lemma steady_reachable t : steady t -> reachable t.
Proof.
  induction 1.
  - by eapply reachable_init.
  - eapply reachable_setitem; [done|]. by left.
  - eapply reachable_delitem; [done|]. by left.
  - eapply reachable_rehash; [done|]. by left.
Qed.

(** The schedule is never changed, and [size_index] never goes back. *)
Lemma setitem_fuel_schedule fuel t k (v : V) t' :
  leaves (setitem_fuel fuel t k v) t' ->
  TABLE_SIZES t' = TABLE_SIZES t /\ (size_index t <= size_index t')%nat.
Proof.
  apply (setitem_fuel_invariant
           (fun t' => TABLE_SIZES t' = TABLE_SIZES t
                      /\ (size_index t <= size_index t')%nat)).
  - intros t0 k0 v0 tw H (p & s0 & _ & _ & _ & ->)%put_Return. done.
  - intros t0 [H1 H2]. simpl. split; [done | lia].
  - intros t0 n [H1 H2]. done.
  - done.
Qed.

Lemma rehash_with_schedule fuel t t' :
  leaves (rehash_with (setitem_fuel fuel) t) t' ->
  TABLE_SIZES t' = TABLE_SIZES t /\ (size_index t < size_index t')%nat.
Proof.
  rewrite rehash_with_advance.
  destruct (_ <=? _)%nat; [intros ->%leaves_Raise; simpl; split; [done|lia]|].
  destruct (TABLE_SIZES t !! S (size_index t)) as [n|];
    [|intros ->%leaves_Raise; simpl; split; [done|lia]].
  apply (reinsert_invariant
           (fun t' => TABLE_SIZES t' = TABLE_SIZES t
                      /\ (size_index t < size_index t')%nat)).
  - intros t0 k v t1 [H1 H2] [H3 H4]%setitem_fuel_schedule.
    split; [congruence | lia].
  - simpl. split; [done | lia].
Qed.

(** A call that returns leaves the capacity on the schedule. *)
Lemma put_on_schedule t k (v : V) tw :
  on_schedule t -> put t k v = Return tw -> on_schedule tw.
Proof.
  intros (n & Hn & Hsize) Hput. exists n.
  rewrite (put_table_size _ _ _ _ Hput).
  apply put_Return in Hput as (p & s0 & _ & _ & _ & ->). done.
Qed.

Lemma table_size_ArrayR (sizes : list positive) (i : nat) (n : positive)
    (c : Z) :
  table_size (mkTable sizes i (ArrayR (V:=V) n) c) = Z.pos n.
Proof.
  unfold table_size, ArrayR. simpl. rewrite length_replicate. lia.
Qed.

Lemma alloc_on_schedule t (n : positive) :
  TABLE_SIZES t !! size_index t = Some n -> on_schedule (alloc t n).
Proof.
  intros Hn. exists n. split; [done|]. apply table_size_ArrayR.
Qed.

Lemma setitem_fuel_on_schedule fuel t k (v : V) t' :
  on_schedule t -> setitem_fuel fuel t k v = Ok t' -> on_schedule t'.
Proof.
  apply setitem_fuel_returned; [apply put_on_schedule|apply alloc_on_schedule].
Qed.

Lemma rehash_with_on_schedule fuel t t' :
  rehash_with (setitem_fuel fuel) t = Ok t' -> on_schedule t'.
Proof.
  apply rehash_with_returned with (P := on_schedule).
  - apply alloc_on_schedule.
  - intros t0 k v t1. apply setitem_fuel_on_schedule.
Qed.

(** Tombstones come from [__delitem__] alone. *)
Lemma put_no_tombstone t k (v : V) tw :
  no_tombstone (array t) -> put t k v = Return tw -> no_tombstone (array tw).
Proof.
  intros Hno (p & s0 & _ & _ & _ & ->)%put_Return i. simpl.
  unfold ArrayR_set. destruct (decide (i = Z.to_nat p)) as [->|Hne].
  - destruct (decide (Z.to_nat p < length (array t))%nat).
    + by rewrite list_lookup_insert_eq.
    + rewrite list_insert_ge by lia. apply Hno.
  - rewrite list_lookup_insert_ne by done. apply Hno.
Qed.

Lemma ArrayR_no_tombstone (n : positive) : no_tombstone (ArrayR (V:=V) n).
Proof. intros i [[=] _]%lookup_replicate_1. Qed.

Lemma rehash_with_no_tombstone fuel t t' :
  rehash_with (setitem_fuel fuel) t = Ok t' -> no_tombstone (array t').
Proof.
  apply rehash_with_returned with (P := fun t => no_tombstone (array t)).
  - intros t0 n _. apply ArrayR_no_tombstone.
  - intros t0 k v t1.
    apply (setitem_fuel_returned (fun t => no_tombstone (array t))).
    + apply put_no_tombstone.
    + intros t2 n _. apply ArrayR_no_tombstone.
Qed.

(** A call of [__setitem__] that returns leaves the table within its load
    factor. *)
Lemma reinsert_within_load set items :
  (forall t k v t', set t k v = Ok t' -> over_load t' = false) ->
  forall t t',
    over_load t = false -> reinsert set items t = Ok t' ->
    over_load t' = false.
Proof.
  intros Hset. induction items as [|[| |k v] rest IH]; intros t t' Ht; simpl.
  - by intros [= <-].
  - by apply IH.
  - done.
  - destruct (set t k v) as [t1|e t1|] eqn:E; [|done|done].
    apply IH. by apply (Hset t k v).
Qed.

Lemma over_load_alloc t (n : positive) : over_load (alloc t n) = false.
Proof.
  unfold over_load, len, alloc. rewrite table_size_ArrayR. simpl.
  apply Z.ltb_ge. lia.
Qed.

Lemma setitem_fuel_within_load fuel :
  forall t k (v : V) t',
    setitem_fuel fuel t k v = Ok t' -> over_load t' = false.
Proof.
  induction fuel as [|fuel IH]; intros t k v t';
    rewrite setitem_fuel_put;
    destruct (put t k v) as [tw|e] eqn:Eput; try done;
    (destruct (count tw <? 0); [done|]);
    (destruct (over_load tw) eqn:Eload; [|by intros [= <-]]).
  - done.
  - rewrite rehash_with_advance.
    destruct (_ <=? _)%nat; [done|].
    destruct (TABLE_SIZES tw !! S (size_index tw)) as [n|]; [|done].
    apply reinsert_within_load; [done|]. apply over_load_alloc.
Qed.

Lemma rehash_within_load t t' : rehash t = Ok t' -> over_load t' = false.
Proof.
  unfold rehash. rewrite rehash_with_advance.
  destruct (_ <=? _)%nat; [done|].
  destruct (TABLE_SIZES t !! S (size_index t)) as [n|]; [|done].
  apply reinsert_within_load; [|apply over_load_alloc].
  intros t0 k v t1. apply setitem_fuel_within_load.
Qed.

End Calls.

Section Fuel.

Context {V : Type}.

Implicit Types (t : table V) (arr items : list (Slot V)) (k : key)
  (s : Slot V) (o : outcome V) (set : table V -> key -> V -> outcome V).

(** ** The fuel is enough *)

Lemma reinsert_fuel_mono set set' items :
  (forall t k v o, set t k v = o -> o <> OutOfFuel -> set' t k v = o) ->
  forall t o,
    reinsert set items t = o -> o <> OutOfFuel -> reinsert set' items t = o.
Proof.
  intros Hset. induction items as [|[| |k v] rest IH]; intros t o; simpl;
    auto.
  destruct (set t k v) as [t1|e t1|] eqn:E.
  - rewrite (Hset _ _ _ _ E) by done. apply IH.
  - rewrite (Hset _ _ _ _ E) by done. done.
  - by intros <-.
Qed.

Lemma rehash_with_fuel_mono set set' t o :
  (forall t k v o, set t k v = o -> o <> OutOfFuel -> set' t k v = o) ->
  rehash_with set t = o -> o <> OutOfFuel -> rehash_with set' t = o.
Proof.
  intros Hset. rewrite !rehash_with_advance.
  destruct (_ <=? _)%nat; [done|].
  destruct (TABLE_SIZES t !! S (size_index t)) as [n|]; [|done].
  by apply reinsert_fuel_mono.
Qed.

Lemma setitem_fuel_mono fuel :
  forall fuel' t k (v : V) o,
    (fuel <= fuel')%nat ->
    setitem_fuel fuel t k v = o -> o <> OutOfFuel ->
    setitem_fuel fuel' t k v = o.
Proof.
  induction fuel as [|fuel IH]; intros fuel' t k v o Hle;
    rewrite !setitem_fuel_put;
    destruct (put t k v) as [tw|e]; try done;
    (destruct (count tw <? 0); [done|]);
    (destruct (over_load tw); [|done]).
  - by intros <-.
  - destruct fuel' as [|fuel']; [lia|].
    apply rehash_with_fuel_mono. intros t0 k0 v0 o0. apply IH. lia.
Qed.

Lemma reinsert_enough (Q : table V -> Prop) set items :
  (forall t k v, Q t -> set t k v <> OutOfFuel) ->
  (forall t k v t', Q t -> set t k v = Ok t' -> Q t') ->
  forall t, Q t -> reinsert set items t <> OutOfFuel.
Proof.
  intros Hset HQ. induction items as [|[| |k v] rest IH]; intros t Ht; simpl;
    auto; try done.
  destruct (set t k v) as [t1|e t1|] eqn:E.
  - apply IH. by apply (HQ t k v).
  - done.
  - by apply Hset in E.
Qed.

Lemma rehash_with_enough fuel t :
  (forall t0 k (v : V),
     (length (TABLE_SIZES t0) - size_index t0 < fuel)%nat ->
     setitem_fuel fuel t0 k v <> OutOfFuel) ->
  (length (TABLE_SIZES t) - size_index t <= fuel)%nat ->
  rehash_with (setitem_fuel fuel) t <> OutOfFuel.
Proof.
  intros Hset Hfuel. rewrite rehash_with_advance.
  destruct (Nat.leb_spec (length (TABLE_SIZES t)) (S (size_index t)));
    [done|].
  destruct (TABLE_SIZES t !! S (size_index t)) as [n|]; [|done].
  apply (reinsert_enough
           (fun t0 => TABLE_SIZES t0 = TABLE_SIZES t
                      /\ (size_index t < size_index t0)%nat)).
  - intros t0 k v [H1 H2]. apply Hset. rewrite H1. lia.
  - intros t0 k v t1 [H1 H2] Hok.
    destruct (setitem_fuel_schedule fuel t0 k v t1) as [H3 H4];
      [rewrite Hok; by left|].
    split; [congruence | lia].
  - simpl. split; [done | lia].
Qed.

Lemma setitem_fuel_enough fuel :
  forall t k (v : V),
    (length (TABLE_SIZES t) - size_index t < fuel)%nat ->
    setitem_fuel fuel t k v <> OutOfFuel.
Proof.
  induction fuel as [|fuel IH]; intros t k v Hfuel; [lia|].
  rewrite setitem_fuel_put.
  destruct (put t k v) as [tw|e] eqn:Eput; [|done].
  destruct (count tw <? 0); [done|].
  destruct (over_load tw); [|done].
  apply put_Return in Eput as (p & s0 & _ & _ & _ & ->).
  apply rehash_with_enough; [done | simpl; lia].
Qed.

(** [__setitem__] ends: it returns or raises. *)
Lemma setitem_terminates t k (v : V) : setitem t k v <> OutOfFuel.
Proof. apply setitem_fuel_enough. unfold enough_fuel. lia. Qed.

(** [_rehash] ends: it returns or raises. *)
Lemma rehash_terminates t : rehash t <> OutOfFuel.
Proof.
  apply rehash_with_enough; [apply setitem_fuel_enough|].
  unfold enough_fuel. lia.
Qed.

(** [_rehash] as [__setitem__] calls it is [_rehash]. *)
Lemma rehash_with_rehash fuel t o :
  rehash_with (setitem_fuel fuel) t = o -> o <> OutOfFuel -> rehash t = o.
Proof.
  intros H Ho. unfold rehash.
  destruct (Nat.le_ge_cases fuel (enough_fuel t)) as [Hle|Hge].
  - eapply rehash_with_fuel_mono; [|exact H|done].
    intros t0 k v o0. by apply setitem_fuel_mono.
  - pose proof (rehash_terminates t) as Hterm. unfold rehash in Hterm.
    rewrite <- H. symmetry.
    eapply rehash_with_fuel_mono; [|reflexivity|done].
    intros t0 k v o0. by apply setitem_fuel_mono.
Qed.

(** ** The entries across a call *)

Lemma distinct_tail s items : distinct (s :: items) -> distinct items.
Proof.
  intros H i j k v v' Hi Hj.
  assert (S i = S j) by (by eapply H). lia.
Qed.

Lemma distinct_head k (v v' : V) items :
  distinct (Occupied k v :: items) -> Occupied k v' ∉ items.
Proof.
  intros H [j Hj]%list_elem_of_lookup.
  assert (0%nat = S j) by (by eapply H). lia.
Qed.

Lemma entry_elem_of t k (v : V) : entry t k v <-> Occupied k v ∈ array t.
Proof. unfold entry. by rewrite list_elem_of_lookup. Qed.

Lemma reinsert_entries set items :
  (forall t k v t', findable t -> set t k v = Ok t' -> findable t') ->
  (forall t k v t',
     findable t -> set t k v = Ok t' ->
     forall k' v',
       entry t' k' v' <-> (k' = k /\ v' = v) \/ (k' <> k /\ entry t k' v')) ->
  distinct items ->
  forall t t',
    findable t -> reinsert set items t = Ok t' ->
    forall k v,
      entry t' k v
      <-> Occupied k v ∈ items
          \/ ((forall v', Occupied k v' ∉ items) /\ entry t k v).
Proof.
  intros Hfind Hset.
  induction items as [|[| |k0 v0] rest IH]; intros Hd t t' Ht; simpl.
  - intros [= <-] k v. rewrite elem_of_nil.
    split; [|by intros [[]|[_ ?]]].
    intros H. right. split; [|done]. intros v'. apply not_elem_of_nil.
  - intros H k v. rewrite (IH (distinct_tail _ _ Hd) _ _ Ht H).
    rewrite elem_of_cons.
    split.
    + intros [?|[Hno ?]]; [by left; right|]. right. split; [|done].
      intros v' [[=]|?]%elem_of_cons. by eapply Hno.
    + intros [[[=]|?]|[Hno ?]]; [by left|]. right. split; [|done].
      intros v' ?. eapply Hno. by right.
  - done.
  - destruct (set t k0 v0) as [t1|e t1|] eqn:E; [|done|done].
    intros H k v.
    rewrite (IH (distinct_tail _ _ Hd) _ _ (Hfind _ _ _ _ Ht E) H).
    rewrite (Hset _ _ _ _ Ht E), elem_of_cons.
    split.
    + intros [?|[Hno [[-> ->]|[Hne He]]]].
      * by left; right.
      * by left; left.
      * right. split; [|done].
        intros v' [[=]|?]%elem_of_cons; [done|]. by eapply Hno.
    + intros [[[= -> ->]|?]|[Hno He]].
      * right. split; [|by left]. intros v'. by eapply distinct_head.
      * by left.
      * right. split; [intros v' ?; eapply Hno; by right|].
        right. split; [|done]. intros ->. eapply Hno. by left.
Qed.

Lemma alloc_no_entry t (n : positive) k (v : V) : ~ entry (alloc t n) k v.
Proof. intros [i [[=] _]%lookup_replicate_1]. Qed.

Lemma rehash_with_entries set t t' :
  (forall t k v t', findable t -> set t k v = Ok t' -> findable t') ->
  (forall t k v t',
     findable t -> set t k v = Ok t' ->
     forall k' v',
       entry t' k' v' <-> (k' = k /\ v' = v) \/ (k' <> k /\ entry t k' v')) ->
  findable t -> rehash_with set t = Ok t' ->
  forall k v, entry t' k v <-> entry t k v.
Proof.
  intros Hfind Hset Ht. rewrite rehash_with_advance.
  destruct (_ <=? _)%nat; [done|].
  destruct (TABLE_SIZES t !! S (size_index t)) as [n|]; [|done].
  intros H k v.
  rewrite (reinsert_entries set (array t) Hfind Hset (findable_distinct _ Ht)
             _ _ (findable_alloc _ _) H).
  rewrite (entry_elem_of t). split; [|by left].
  intros [?|[_ ?%alloc_no_entry]]; done.
Qed.

Lemma setitem_fuel_Ok_findable fuel t k (v : V) t' :
  findable t -> setitem_fuel fuel t k v = Ok t' -> findable t'.
Proof.
  intros Ht H. eapply setitem_fuel_findable; [done|]. rewrite H. by left.
Qed.

Lemma setitem_fuel_entries fuel :
  forall t k (v : V) t',
    findable t -> setitem_fuel fuel t k v = Ok t' ->
    forall k' v',
      entry t' k' v' <-> (k' = k /\ v' = v) \/ (k' <> k /\ entry t k' v').
Proof.
  induction fuel as [|fuel IH]; intros t k v t' Ht;
    rewrite setitem_fuel_put;
    destruct (put t k v) as [tw|e] eqn:Eput; try done;
    (destruct (count tw <? 0); [done|]);
    (destruct (over_load tw); [|intros [= <-]; by apply put_entry]).
  - done.
  - intros H k' v'.
    rewrite (rehash_with_entries _ tw t' (setitem_fuel_Ok_findable fuel) IH
               (findable_put _ _ _ _ Ht Eput) H).
    by apply put_entry.
Qed.

Lemma rehash_entries t t' :
  findable t -> rehash t = Ok t' ->
  forall k (v : V), entry t' k v <-> entry t k v.
Proof.
  apply rehash_with_entries.
  - apply setitem_fuel_Ok_findable.
  - apply setitem_fuel_entries.
Qed.

End Fuel.

Section LoadFactor.

Context {V : Type}.

Implicit Types (t : table V) (arr items : list (Slot V)) (k : key)
  (s : Slot V) (o : outcome V).

(** ** Within the load factor *)

Lemma delitem_Ok t k t1 :
  delitem t k = Ok t1 ->
  exists p : Z,
    _hashy_probe t k false = Return p
    /\ t1 = mkTable (TABLE_SIZES t) (size_index t)
              (ArrayR_set (array t) p DELETED) (count t - 1).
Proof.
  unfold delitem. destruct (_hashy_probe t k false) as [p|e]; [|done].
  intros [= <-]. by exists p.
Qed.

Lemma steady_within_load t : steady t -> over_load t = false.
Proof.
  induction 1 as [sizes t Hinit|t k v t' _ IH Hset|t k t' _ IH Hdel
                 |t t' _ IH Hre].
  - apply init_Return in Hinit as (n & _ & ->).
    unfold over_load, len. rewrite table_size_ArrayR. simpl.
    apply Z.ltb_ge. lia.
  - by eapply setitem_fuel_within_load.
  - apply delitem_Ok in Hdel as (p & _ & ->).
    unfold over_load, len, table_size in *. simpl.
    rewrite ArrayR_set_length. apply Z.ltb_ge. apply Z.ltb_ge in IH. lia.
  - by apply (rehash_within_load t).
Qed.

Lemma steady_on_schedule t : steady t -> on_schedule t.
Proof.
  induction 1 as [sizes t Hinit|t k v t' _ IH Hset|t k t' _ IH Hdel
                 |t t' _ IH Hre].
  - apply init_Return in Hinit as (n & Hn & ->).
    exists n. split; [done|]. apply table_size_ArrayR.
  - by eapply setitem_fuel_on_schedule.
  - apply delitem_Ok in Hdel as (p & _ & ->).
    destruct IH as (n & Hn & Hsize). exists n. split; [done|].
    unfold table_size in *. simpl. by rewrite ArrayR_set_length.
  - unfold rehash in Hre. by eapply rehash_with_on_schedule.
Qed.

(** ** A rehash without a rehash inside *)

Lemma live_cons s arr :
  live (s :: arr) = (if is_occupied s then 1 else 0) + live arr.
Proof.
  unfold live. rewrite filter_cons.
  destruct (decide (is_occupied s = true)) as [->|Hs].
  - simpl. lia.
  - destruct (is_occupied s); [done | lia].
Qed.

Lemma live_nonneg arr : 0 <= live arr.
Proof. unfold live. lia. Qed.

Lemma put_count t k (v : V) tw :
  put t k v = Return tw ->
  count t <= count tw <= count t + 1
  /\ size_index tw = size_index t
  /\ TABLE_SIZES tw = TABLE_SIZES t.
Proof.
  intros (p & s0 & _ & _ & _ & ->)%put_Return. simpl.
  destruct s0; repeat split; lia.
Qed.

Lemma reinsert_fits fuel items :
  forall t t',
    0 <= count t ->
    3 * (count t + live items) <= 2 * table_size t ->
    reinsert (setitem_fuel fuel) items t = Ok t' ->
    size_index t' = size_index t /\ table_size t' = table_size t.
Proof.
  induction items as [|[| |k v] rest IH]; intros t t'; rewrite ?live_cons;
    simpl.
  - by intros _ _ [= <-].
  - apply IH.
  - done.
  - intros Hcount0 Hfit. rewrite setitem_fuel_put.
    destruct (put t k v) as [tw|e] eqn:Eput; [|done].
    pose proof (put_table_size _ _ _ _ Eput) as Hsize.
    pose proof (put_count _ _ _ _ Eput) as (Hcount & Hindex & _).
    pose proof (live_nonneg rest) as Hlive.
    assert ((count tw <? 0) = false) as -> by (apply Z.ltb_ge; lia).
    assert (over_load tw = false) as ->.
    { unfold over_load, len. apply Z.ltb_ge. lia. }
    intros H. apply IH in H as [H1 H2]; [|lia|lia].
    split; congruence.
Qed.

Lemma rehash_with_fits fuel t t' (n : positive) :
  TABLE_SIZES t !! S (size_index t) = Some n ->
  3 * live (array t) <= 2 * Z.pos n ->
  rehash_with (setitem_fuel fuel) t = Ok t' ->
  size_index t' = S (size_index t) /\ table_size t' = Z.pos n.
Proof.
  intros Hn Hfit. rewrite rehash_with_advance.
  destruct (_ <=? _)%nat; [done|]. rewrite Hn.
  intros H. apply reinsert_fits in H as [H1 H2].
  - unfold alloc in H2. rewrite table_size_ArrayR in H2. done.
  - simpl. lia.
  - unfold alloc. rewrite table_size_ArrayR. simpl. lia.
Qed.

End LoadFactor.

Section ProbeSpec.

Context {V : Type}.

Implicit Types (t : table V) (arr items : list (Slot V)) (k : key)
  (s : Slot V).

(** ** The loop of the probe and the path of the specification *)

Lemma path_from_closed (capacity start step : Z) (n : nat) :
  forall (a : nat) (position : Z),
    position = (start + Z.of_nat a * step) mod capacity ->
    path_from capacity step n position
    = List.map (fun j => (start + j * step) mod capacity)
        (List.map Z.of_nat (seq a n)).
Proof.
  induction n as [|n IH]; intros a position Hposition; simpl; [done|].
  f_equal; [done|]. apply IH. subst position.
  rewrite Zplus_mod_idemp_l. f_equal. lia.
Qed.

Lemma probe_path_path_from (capacity start step : Z) :
  0 <= start < capacity ->
  probe_path start step capacity
  = path_from capacity step (Z.to_nat capacity) start.
Proof.
  intros Hstart. unfold probe_path, range. symmetry.
  apply path_from_closed. rewrite Z.mod_small; lia.
Qed.

Lemma probe_loop_resolution arr k (b : bool) (step : Z) n :
  forall position fd,
    0 <= position < Z.of_nat (length arr) ->
    probe_loop arr k b step n position fd
    = resolution arr k b
        (path_from (Z.of_nat (length arr)) step n position)
        (match fd with
         | Some d => Some d
         | None =>
             List.find (is_tombstone arr)
               (passed_over (resolves arr k)
                  (path_from (Z.of_nat (length arr)) step n position))
         end).
Proof.
  induction n as [|n IH]; intros position fd Hrange.
  - unfold resolution. simpl. by destruct b, fd.
  - destruct (ArrayR_get_in_range _ _ Hrange) as [s Hs].
    pose proof (next_position_range arr position step Hrange) as Hnext.
    assert (Hres : resolves arr k position
                   = match s with
                     | Empty => true
                     | DELETED => false
                     | Occupied k' _ => key_eqb k' k
                     end)
      by (unfold resolves; by rewrite Hs).
    assert (Htomb : is_tombstone arr position
                    = match s with DELETED => true | _ => false end)
      by (unfold is_tombstone; by rewrite Hs).
    cbn [probe_loop path_from]. rewrite Hs. cbn [mbind result_bind].
    unfold resolution. cbn [List.find passed_over]. rewrite Hres.
    destruct s as [| |k' v'].
    + rewrite Hs. by destruct b, fd.
    + cbn [List.find]. rewrite Htomb, (IH _ _ Hnext).
      unfold resolution. by destruct fd.
    + destruct (key_eqb k' k) eqn:Ek.
      * by rewrite Hs.
      * cbn [List.find]. rewrite Htomb, (IH _ _ Hnext).
        unfold resolution. by destruct fd.
Qed.

End ProbeSpec.

Section Counting.

Context {V : Type}.

Implicit Types (t : table V) (arr items : list (Slot V)) (k : key)
  (s : Slot V).

(** ** [count] and the live keys *)

Lemma live_insert arr (i : nat) s0 s :
  arr !! i = Some s0 ->
  live (<[i:=s]> arr)
  = live arr - (if is_occupied s0 then 1 else 0)
    + (if is_occupied s then 1 else 0).
Proof.
  revert i. induction arr as [|s1 arr IH]; intros [|i]; simpl; try done.
  - intros [= ->]. rewrite !live_cons. lia.
  - intros Hi. rewrite !live_cons, (IH _ Hi). lia.
Qed.

Lemma live_ArrayR (n : positive) : live (ArrayR (V:=V) n) = 0.
Proof.
  unfold ArrayR. induction (Pos.to_nat n) as [|m IH]; [done|].
  simpl. by rewrite live_cons, IH.
Qed.

Lemma put_counted t k (v : V) tw :
  no_tombstone (array t) /\ count t = live (array t) ->
  put t k v = Return tw ->
  no_tombstone (array tw) /\ count tw = live (array tw).
Proof.
  intros [Hno Hcount] Hput. split; [by eapply put_no_tombstone|].
  apply put_Return in Hput as (p & s0 & _ & [_ Hs0]%ArrayR_get_Return & _ & ->).
  simpl. unfold ArrayR_set. rewrite (live_insert _ _ _ _ Hs0). simpl.
  destruct s0 as [| |k0 v0]; simpl; [lia | by apply Hno in Hs0 | lia].
Qed.

(** After a [_rehash] that returns, [count] is the number of live keys. *)
Lemma rehash_with_counted fuel t t' :
  rehash_with (setitem_fuel fuel) t = Ok t' -> count t' = live (array t').
Proof.
  intros H.
  apply (rehash_with_returned
           (fun t => no_tombstone (array t) /\ count t = live (array t)))
    in H; [by destruct H| |].
  - intros t0 n _. split; [apply ArrayR_no_tombstone|].
    simpl. by rewrite live_ArrayR.
  - intros t0 k v t1.
    apply (setitem_fuel_returned
             (fun t => no_tombstone (array t) /\ count t = live (array t))).
    + apply put_counted.
    + intros t2 n _. split; [apply ArrayR_no_tombstone|].
      simpl. by rewrite live_ArrayR.
Qed.

End Counting.

Section Iteration.

Context {V : Type}.

Implicit Types (t : table V) (arr items : list (Slot V)) (k : key)
  (s : Slot V).

(** ** [keys] and [values] *)

Lemma ArrayR_get_of_nat arr (a : nat) s :
  arr !! a = Some s -> ArrayR_get arr (Z.of_nat a) = Return s.
Proof.
  intros Ha. apply ArrayR_get_Return. split; [lia|]. by rewrite Nat2Z.id.
Qed.

Lemma keys_loop_tombstone arr (i : nat) :
  arr !! i = Some DELETED ->
  forall (n a : nat) res,
    (a <= i < a + n)%nat ->
    keys_loop arr (List.map Z.of_nat (seq a n)) res = Throw TypeError.
Proof.
  intros Hi. induction n as [|n IH]; intros a res Ha; [lia|].
  destruct (lookup_lt_is_Some_2 arr a) as [s Hs].
  { apply lookup_lt_Some in Hi. lia. }
  simpl. rewrite (ArrayR_get_of_nat _ _ _ Hs). simpl.
  destruct (decide (a = i)) as [->|Hne].
  - rewrite Hi in Hs. by injection Hs as <-.
  - destruct s as [| |k v]; [|done|]; apply IH; lia.
Qed.

Lemma values_loop_tombstone arr (i : nat) :
  arr !! i = Some DELETED ->
  forall (n a : nat) res,
    (a <= i < a + n)%nat ->
    values_loop arr (List.map Z.of_nat (seq a n)) res = Throw TypeError.
Proof.
  intros Hi. induction n as [|n IH]; intros a res Ha; [lia|].
  destruct (lookup_lt_is_Some_2 arr a) as [s Hs].
  { apply lookup_lt_Some in Hi. lia. }
  simpl. rewrite (ArrayR_get_of_nat _ _ _ Hs). simpl.
  destruct (decide (a = i)) as [->|Hne].
  - rewrite Hi in Hs. by injection Hs as <-.
  - destruct s as [| |k v]; [|done|]; apply IH; lia.
Qed.

Lemma keys_loop_no_tombstone arr :
  no_tombstone arr ->
  forall (n a : nat) res,
    (a + n = length arr)%nat ->
    keys_loop arr (List.map Z.of_nat (seq a n)) res
    = Return (res ++ stored_keys (drop a arr)).
Proof.
  intros Hno. induction n as [|n IH]; intros a res Ha.
  - simpl. rewrite drop_ge by lia. by rewrite app_nil_r.
  - destruct (lookup_lt_is_Some_2 arr a) as [s Hs]; [lia|].
    simpl. rewrite (ArrayR_get_of_nat _ _ _ Hs). simpl.
    rewrite (drop_S _ _ _ Hs).
    destruct s as [| |k v]; [|by apply Hno in Hs|].
    + rewrite IH by lia. done.
    + rewrite IH by lia. unfold stored_keys. simpl.
      by rewrite <- app_assoc.
Qed.

Lemma values_loop_no_tombstone arr :
  no_tombstone arr ->
  forall (n a : nat) res,
    (a + n = length arr)%nat ->
    values_loop arr (List.map Z.of_nat (seq a n)) res
    = Return (res ++ stored_values (drop a arr)).
Proof.
  intros Hno. induction n as [|n IH]; intros a res Ha.
  - simpl. rewrite drop_ge by lia. by rewrite app_nil_r.
  - destruct (lookup_lt_is_Some_2 arr a) as [s Hs]; [lia|].
    simpl. rewrite (ArrayR_get_of_nat _ _ _ Hs). simpl.
    rewrite (drop_S _ _ _ Hs).
    destruct s as [| |k v]; [|by apply Hno in Hs|].
    + rewrite IH by lia. done.
    + rewrite IH by lia. unfold stored_values. simpl.
      by rewrite <- app_assoc.
Qed.

(** Without tombstones, [keys] and [values] are the keys and the values of
    the Occupied slots in index order. *)
Lemma keys_values_no_tombstone t :
  no_tombstone (array t) ->
  keys t = Return (stored_keys (array t))
  /\ values t = Return (stored_values (array t)).
Proof.
  intros Hno. unfold keys, values, range, table_size. rewrite Nat2Z.id.
  rewrite keys_loop_no_tombstone, values_loop_no_tombstone by done.
  done.
Qed.

End Iteration.

(** * The claims of the specification *)

Section Claims.

Context {V : Type}.

Implicit Types (t : table V) (arr items : list (Slot V)) (k : key)
  (s : Slot V) (o : outcome V).

(** C9. Whenever the step hash is defined for a key and a capacity, it is an
    integer of at least 1; for a capacity of at least 2 it is also below the
    capacity, so that the next probe position, [(position + step) mod
    capacity], is never the position itself. *)
Theorem hash2_at_least_one t k (step : Z) :
  hash2 t k = Return step ->
  1 <= step
  /\ (2 <= table_size t ->
      step < table_size t
      /\ forall position,
           0 <= position < table_size t ->
           (position + step) mod table_size t <> position).
Proof.
  intros [H1 H2]%hash2_range. split; [done|].
  intros Hsize. specialize (H2 Hsize). split; [done|].
  intros position Hposition.
  destruct (Z_lt_ge_dec (position + step) (table_size t)) as [Hlt|Hge].
  - rewrite Z.mod_small by lia. lia.
  - replace (position + step)
      with ((position + step - table_size t) + 1 * table_size t) by lia.
    rewrite Z.mod_add by lia. rewrite Z.mod_small by lia. lia.
Qed.

(** C10. [hash] takes its multiplier modulo [table_size - 1]: it is total,
    with values in [0, table_size), exactly when the capacity is at least 2.
    At capacity 1 every keyed operation on a non-empty key raises
    [ZeroDivisionError], not [KeyError] or [FullError], and leaves the table
    as it was. *)
Theorem hash_total_iff_capacity_two t :
  ((forall k, exists h, hash t k = Return h /\ 0 <= h < table_size t)
   <-> 2 <= table_size t)
  /\ (table_size t = 1 ->
      forall k, k <> [] ->
        hash t k = Throw ZeroDivisionError
        /\ _hashy_probe t k false = Throw ZeroDivisionError
        /\ _hashy_probe t k true = Throw ZeroDivisionError
        /\ getitem t k = Throw ZeroDivisionError
        /\ contains t k = Throw ZeroDivisionError
        /\ delitem t k = Raise ZeroDivisionError t
        /\ forall v : V, setitem t k v = Raise ZeroDivisionError t).
Proof.
  split; [split|].
  - intros H. specialize (H [0%N]) as (h & Hh & _).
    pose proof (table_size_nonneg t) as Hsize. unfold hash in Hh.
    destruct (Z_lt_ge_dec (table_size t) 2) as [Hlt|]; [|lia].
    assert (table_size t = 0 \/ table_size t = 1) as [E|E] by lia;
      rewrite E in Hh; discriminate.
  - intros Hsize k. destruct (hash_loop_total (table_size t) k Hsize 0 31415)
      as [h Hh].
    exists h. split; [done|]. apply (hash_range t k); [done | lia].
  - intros Hsize k Hk.
    assert (Hhash : hash t k = Throw ZeroDivisionError).
    { unfold hash. rewrite Hsize. destruct k as [|char rest]; [done|].
      apply hash_loop_capacity_one. }
    assert (Hprobe : forall b, _hashy_probe t k b = Throw ZeroDivisionError).
    { intros b. unfold _hashy_probe. by rewrite Hhash. }
    repeat split; try apply Hprobe; try done.
    + unfold getitem. by rewrite Hprobe.
    + unfold contains, getitem. by rewrite Hprobe.
    + unfold delitem. by rewrite Hprobe.
    + intros v. unfold setitem. rewrite setitem_fuel_put.
      assert (put t k v = Throw ZeroDivisionError) as -> by (by apply put_Throw).
      done.
Qed.

(** C2. In every state of a table object, if [set(k, v)] returns, the
    [get(k)] that follows returns [v]. *)
Theorem setitem_getitem_roundtrip t k (v : V) t' :
  reachable t ->
  setitem t k v = Ok t' ->
  getitem t' k = Return v.
Proof.
  intros Hf%reachable_findable Hset. apply entry_getitem.
  - by eapply setitem_fuel_Ok_findable.
  - apply (setitem_fuel_entries _ _ _ _ _ Hf Hset). by left.
Qed.

(** C3 (amended). For a key present in a table object, in any state of it,
    [delete(k)] succeeds; after it [get(k)] raises [KeyError] and
    [contains(k)] is false. When the table is then within its load factor,
    with a [count] that is not negative, a following [set(k, v2)] returns,
    and [get(k)] then returns [v2]. *)
Theorem delete_contract t k (v v2 : V) :
  reachable t ->
  getitem t k = Return v ->
  exists t1,
    delitem t k = Ok t1
    /\ getitem t1 k = Throw KeyError
    /\ contains t1 k = Return false
    /\ (over_load t1 = false ->
        0 <= count t1 ->
        exists t2, setitem t1 k v2 = Ok t2 /\ getitem t2 k = Return v2).
Proof.
  intros Hf%reachable_findable Hget.
  unfold getitem in Hget.
  destruct (_hashy_probe t k false) as [p|e] eqn:Ep; [|done]. clear Hget.
  pose proof Ep as Ep'. rewrite _hashy_probe_arr in Ep'.
  destruct (probe_arr_found _ _ _ Ep') as [v0 Hv0].
  pose proof (ArrayR_get_lt _ _ _ Hv0) as Hrange.
  set (t1 := mkTable (TABLE_SIZES t) (size_index t)
               (ArrayR_set (array t) p DELETED) (count t - 1)).
  assert (Hdel : delitem t k = Ok t1) by (unfold delitem; by rewrite Ep).
  pose proof (findable_delitem _ _ _ Hf Hdel) as Hf1.
  assert (Hgone : forall v', ~ entry t1 k v').
  { intros v' [j Hj]. simpl in Hj. unfold ArrayR_set in Hj.
    destruct (decide (j = Z.to_nat p)) as [->|Hne].
    - rewrite list_lookup_insert_eq in Hj by lia. done.
    - rewrite list_lookup_insert_ne in Hj by done.
      apply Hf in Hj. rewrite Ep in Hj. injection Hj as ->. lia. }
  assert (Hget1 : getitem t1 k = Throw KeyError).
  { unfold getitem. rewrite _hashy_probe_arr.
    destruct (probe_arr (array t1) k false) as [q|e] eqn:Eq.
    - apply probe_arr_found in Eq as [v' [_ Hv']%ArrayR_get_Return].
      destruct (Hgone v'). by exists (Z.to_nat q).
    - eapply probe_arr_lookup_Throw in Eq as ->; [done | exact Ep'|].
      apply ArrayR_set_length. }
  exists t1. split; [done|]. split; [done|].
  split; [unfold contains; by rewrite Hget1|].
  intros Hload Hcount.
  destruct (probe_arr_insert_after_delete _ _ _ Ep') as (q & Hq & Hslot).
  destruct Hslot as [Hslot|[v' [_ Hv']%ArrayR_get_Return]];
    [|destruct (Hgone v'); by exists (Z.to_nat q)].
  set (t2 := mkTable (TABLE_SIZES t) (size_index t)
               (ArrayR_set (array t1) q (Occupied k v2)) (count t - 1)).
  assert (Hput : put t1 k v2 = Return t2).
  { unfold put. rewrite _hashy_probe_arr. simpl. rewrite Hq. simpl.
    unfold write. simpl. by rewrite Hslot. }
  assert (Hload2 : over_load t2 = false).
  { unfold over_load, len, table_size in *. simpl in *.
    rewrite !ArrayR_set_length in *. done. }
  assert (Hcount2 : (count t2 <? 0) = false)
    by (apply Z.ltb_ge; simpl in *; lia).
  exists t2. split.
  - unfold setitem. rewrite setitem_fuel_put, Hput, Hcount2, Hload2. done.
  - apply entry_getitem; [by eapply findable_put|].
    apply (put_entry _ _ _ _ Hf1 Hput). by left.
Qed.

(** C5 (amended). When [_rehash] returns, [size_index] has advanced, the
    capacity is the schedule entry it names, the new array holds no
    tombstone, [count] is the number of live keys, and the table stores
    exactly the entries it stored before, each retrievable with its value.
    When the live keys are at most 2/3 of the next schedule entry, no
    reinsertion rehashes again: [size_index] has advanced by exactly one and
    the capacity is that entry. A [set] that returns, with or without a
    rehash, keeps every other key retrievable with its value. *)
Theorem rehash_preserves_entries t :
  reachable t ->
  (forall t',
     rehash t = Ok t' ->
     TABLE_SIZES t' = TABLE_SIZES t
     /\ (size_index t < size_index t')%nat
     /\ on_schedule t'
     /\ no_tombstone (array t')
     /\ count t' = live (array t')
     /\ (forall k v, entry t' k v <-> entry t k v)
     /\ (forall k v, getitem t k = Return v -> getitem t' k = Return v)
     /\ (forall n : positive,
          TABLE_SIZES t !! S (size_index t) = Some n ->
          3 * live (array t) <= 2 * Z.pos n ->
          size_index t' = S (size_index t) /\ table_size t' = Z.pos n))
  /\ (forall k0 (v0 : V) t',
        setitem t k0 v0 = Ok t' ->
        forall k v, k <> k0 ->
          getitem t k = Return v -> getitem t' k = Return v).
Proof.
  intros Hf%reachable_findable. split.
  - intros t' H.
    assert (Hf' : findable t')
      by (eapply rehash_findable; [done | rewrite H; by left]).
    pose proof (rehash_entries _ _ Hf H) as Hentries.
    unfold rehash in H.
    destruct (rehash_with_schedule (enough_fuel t) t t') as [H1 H2];
      [rewrite H; by left|].
    repeat split; try done.
    + by eapply rehash_with_on_schedule.
    + by eapply rehash_with_no_tombstone.
    + by eapply rehash_with_counted.
    + by apply Hentries.
    + by apply Hentries.
    + intros k v Hget%getitem_entry. apply entry_getitem; [done|].
      by apply Hentries.
    + eapply rehash_with_fits; eauto.
    + eapply rehash_with_fits; eauto.
  - intros k0 v0 t' Hset k v Hne Hget%getitem_entry.
    apply entry_getitem; [by eapply setitem_fuel_Ok_findable|].
    apply (setitem_fuel_entries _ _ _ _ _ Hf Hset). by right.
Qed.

(** C6 (amended). When [set] returns, it has probed and written; if [count]
    then exceeds 2/3 of the capacity, the schedule has a next entry and the table
    returned is the one [_rehash] makes of the written table, at a later
    [size_index] and with the capacity that the schedule has there, which is
    the next entry when the live keys are at most 2/3 of it; otherwise the
    table returned is the written table, its capacity and [size_index]
    unchanged. *)
Theorem setitem_load_trigger t k (v : V) t' :
  setitem t k v = Ok t' ->
  exists tw,
    put t k v = Return tw
    /\ if over_load tw
       then (exists n : positive,
               TABLE_SIZES t !! S (size_index t) = Some n
               /\ (3 * live (array tw) <= 2 * Z.pos n ->
                   size_index t' = S (size_index t)
                   /\ table_size t' = Z.pos n))
            /\ rehash tw = Ok t'
            /\ (size_index t < size_index t')%nat
            /\ on_schedule t'
       else t' = tw
            /\ table_size t' = table_size t
            /\ size_index t' = size_index t.
Proof.
  unfold setitem. rewrite setitem_fuel_put.
  destruct (put t k v) as [tw|e] eqn:Eput; [|done].
  exists tw. split; [done|].
  pose proof (put_count _ _ _ _ Eput) as (_ & Hindex & Hsizes).
  destruct (count tw <? 0); [done|].
  destruct (over_load tw).
  - unfold enough_fuel in H. simpl in H.
    pose proof H as Hadv. rewrite rehash_with_advance in Hadv.
    destruct (_ <=? _)%nat; [done|].
    destruct (TABLE_SIZES tw !! S (size_index tw)) as [n|] eqn:En; [|done].
    destruct (rehash_with_schedule _ tw t' ltac:(rewrite H; by left))
      as [H1 H2].
    split; [|split; [|split]].
    + exists n. rewrite <- Hsizes, <- Hindex. split; [done|].
      intros Hfit. by eapply rehash_with_fits.
    + by apply (rehash_with_rehash _ _ _ H).
    + lia.
    + by eapply rehash_with_on_schedule.
  - injection H as <-. split; [done|].
    split; [by eapply put_table_size | done].
Qed.

(** C4 (amended). A [set] that raises [FullError] either raised it from
    its probe, and then the table is unchanged, or had written its entry and
    raised it from the [_rehash] it then called. A [_rehash] that finds no
    schedule entry after [size_index] raises [FullError] and leaves the slot
    array, hence the stored entries and the capacity, [count] and the
    schedule as they were; after a [set] these are those of the written
    table, with the new entry in it. *)
Theorem table_full_effects t :
  (forall k (v : V) t',
     setitem t k v = Raise FullError t' ->
     (_hashy_probe t k true = Throw FullError /\ t' = t)
     \/ exists tw,
          put t k v = Return tw
          /\ over_load tw = true
          /\ rehash tw = Raise FullError t'
          /\ ((length (TABLE_SIZES t) <= S (size_index t))%nat ->
              array t' = array tw
              /\ count t' = count tw
              /\ TABLE_SIZES t' = TABLE_SIZES t))
  /\ (forall k (v : V),
        _hashy_probe t k true = Throw FullError ->
        setitem t k v = Raise FullError t)
  /\ ((length (TABLE_SIZES t) <= S (size_index t))%nat ->
      exists t',
        rehash t = Raise FullError t'
        /\ array t' = array t
        /\ count t' = count t
        /\ TABLE_SIZES t' = TABLE_SIZES t).
Proof.
  assert (Hexhausted : forall fuel t0,
    (length (TABLE_SIZES t0) <= S (size_index t0))%nat ->
    rehash_with (setitem_fuel fuel) t0 = Raise FullError (advance t0)).
  { intros fuel t0 Hlen. rewrite rehash_with_advance.
    destruct (Nat.leb_spec (length (TABLE_SIZES t0)) (S (size_index t0)));
      [done | lia]. }
  split; [|split].
  - intros k v t'. unfold setitem. rewrite setitem_fuel_put.
    destruct (put t k v) as [tw|e] eqn:Eput.
    + pose proof (put_count _ _ _ _ Eput) as (_ & Hindex & Hsizes).
      destruct (count tw <? 0); [done|].
      destruct (over_load tw) eqn:Eload; [|done].
      unfold enough_fuel. simpl. intros H. right. exists tw.
      split; [done|]. split; [done|].
      split; [by apply (rehash_with_rehash _ _ _ H)|].
      intros Hlen. rewrite Hexhausted in H by (rewrite Hsizes, Hindex; lia).
      injection H as <-. done.
    + intros [= -> <-]. left. split; [|done]. by apply put_Throw in Eput.
  - intros k v Hprobe. unfold setitem. rewrite setitem_fuel_put.
    apply (put_Throw t k v) in Hprobe. by rewrite Hprobe.
  - intros Hlen. exists (advance t). unfold rehash.
    by rewrite Hexhausted.
Qed.

(** C8. [_hashy_probe] is the probe of the specification: it starts at
    [hash(key)], advances by [hash2(key)] modulo the capacity, and examines
    at most [table_size] slots; it ends at the first Empty slot or slot
    Occupied by the key, and when there is none, at the end of the path
    (see [probe_spec] and [resolution] for what it returns or raises). *)
Theorem hashy_probe_spec t k (is_insert : bool) :
  _hashy_probe t k is_insert = probe_spec t k is_insert
  /\ forall start step,
       length (probe_path start step (table_size t))
       = Z.to_nat (table_size t).
Proof.
  split.
  - unfold _hashy_probe, probe_spec.
    destruct (hash t k) as [start|e] eqn:Eh; [|done]. cbn [mbind result_bind].
    destruct (hash2 t k) as [step|e]; [|done]. cbn [mbind result_bind].
    destruct (decide (array t = [])) as [Harr|Harr].
    + unfold table_size, probe_path, range, resolution. rewrite Harr. simpl.
      by destruct is_insert.
    + assert (0 <= start < table_size t) as Hstart.
      { apply (hash_range t k); [done|]. unfold table_size.
        destruct (array t); [done | simpl; lia]. }
      rewrite probe_path_path_from by done.
      unfold table_size in *. rewrite Nat2Z.id.
      by apply (probe_loop_resolution (array t) k is_insert step
                  (length (array t)) start None).
  - intros start step. unfold probe_path, range.
    by rewrite !length_map, length_seq.
Qed.

(** C7. In a table that holds a tombstone, [keys] and [values] raise
    [TypeError] at the tombstone ([DELETED] is not a tuple) where the
    specification has them return the keys and the values of the Occupied
    slots. *)
Theorem keys_values_tombstone t (i : nat) :
  array t !! i = Some DELETED ->
  keys t = Throw TypeError /\ values t = Throw TypeError.
Proof.
  intros Hi. pose proof (lookup_lt_Some _ _ _ Hi) as Hlt.
  unfold keys, values, range, table_size. rewrite Nat2Z.id.
  split.
  - apply (keys_loop_tombstone _ i); [done | lia].
  - apply (values_loop_tombstone _ i); [done | lia].
Qed.

End Claims.

Lemma hash2_at_least_one_witness :
  hash2 example_abc (str "d") = Return 1
  /\ (1 <= 1
      /\ (2 <= table_size example_abc ->
          1 < table_size example_abc
          /\ forall position,
               0 <= position < table_size example_abc ->
               (position + 1) mod table_size example_abc <> position)).
Proof.
  split; [reflexivity|].
  apply (hash2_at_least_one example_abc (str "d") 1). reflexivity.
Defined.

Lemma hash_total_iff_capacity_two_witness :
  (exists h, hash example_abc (str "d") = Return h
             /\ 0 <= h < table_size example_abc)
  /\ setitem example_one (str "a") 0 = Raise ZeroDivisionError example_one.
Proof.
  split.
  - apply (proj1 (hash_total_iff_capacity_two example_abc)).
    vm_compute. discriminate.
  - apply (proj2 (hash_total_iff_capacity_two example_one));
      [reflexivity | discriminate].
Defined.

Lemma example_abc_steady : steady example_abc.
Proof.
  apply (steady_setitem
           (mkTable [5%positive] 0
              [Empty; Empty; Occupied (str "a") 0; Occupied (str "b") 1;
               Empty] 2)
           (str "c") 2); [|reflexivity].
  apply (steady_setitem
           (mkTable [5%positive] 0
              [Empty; Empty; Occupied (str "a") 0; Empty; Empty] 1)
           (str "b") 1); [|reflexivity].
  apply (steady_setitem (mkTable [5%positive] 0 (ArrayR 5) 0) (str "a") 0);
    [|reflexivity].
  apply (steady_init (Some [5%positive])). reflexivity.
Qed.

Lemma example_default_abc_steady : steady example_default_abc.
Proof.
  apply (steady_setitem
           (mkTable DEFAULT_TABLE_SIZES 0
              [Empty; Empty; Occupied (str "a") 0; Occupied (str "b") 1;
               Empty] 2)
           (str "c") 2); [|reflexivity].
  apply (steady_setitem
           (mkTable DEFAULT_TABLE_SIZES 0
              [Empty; Empty; Occupied (str "a") 0; Empty; Empty] 1)
           (str "b") 1); [|reflexivity].
  apply (steady_setitem (mkTable DEFAULT_TABLE_SIZES 0 (ArrayR 5) 0)
           (str "a") 0); [|reflexivity].
  apply (steady_init None). reflexivity.
Qed.

Lemma setitem_getitem_roundtrip_witness :
  setitem example_default_abc (str "d") 3 = Ok example_default_abcd
  /\ getitem example_default_abcd (str "d") = Return 3.
Proof.
  assert (H : setitem example_default_abc (str "d") 3
              = Ok example_default_abcd) by reflexivity.
  split; [exact H|].
  apply (setitem_getitem_roundtrip example_default_abc (str "d") 3
           example_default_abcd); [|exact H].
  apply steady_reachable, example_default_abc_steady.
Defined.

Lemma delete_contract_witness :
  getitem example_abc (str "b") = Return 1
  /\ exists t1,
       delitem example_abc (str "b") = Ok t1
       /\ getitem t1 (str "b") = Throw KeyError
       /\ contains t1 (str "b") = Return false
       /\ over_load t1 = false
       /\ 0 <= count t1
       /\ exists t2,
            setitem t1 (str "b") 7 = Ok t2
            /\ getitem t2 (str "b") = Return 7.
Proof.
  split; [reflexivity|].
  destruct (delete_contract example_abc (str "b") 1 7
              (steady_reachable _ example_abc_steady) eq_refl)
    as (t1 & Hdel & Hget & Hcontains & Hset).
  exists t1. split; [exact Hdel|]. split; [exact Hget|].
  split; [exact Hcontains|].
  injection Hdel as <-.
  split; [reflexivity|]. split; [simpl; lia|].
  apply Hset; [reflexivity | simpl; lia].
Defined.

Lemma example_ab_steady : steady example_ab.
Proof.
  apply (steady_setitem
           (mkTable [3; 4; 50]%positive 0
              [Empty; Occupied (str "a") 0; Empty] 1)
           (str "b") 0); [|reflexivity].
  apply (steady_setitem (mkTable [3; 4; 50]%positive 0 (ArrayR 3) 0)
           (str "a") 0); [|reflexivity].
  apply (steady_init (Some [3; 4; 50]%positive)). reflexivity.
Qed.

Lemma example_cab_reachable : reachable example_cab.
Proof.
  apply (reachable_put example_ab (str "c") 0); [|reflexivity].
  apply steady_reachable, example_ab_steady.
Qed.

(** C5 as stated fails on the schedule [[3; 4; 50]]: setting a third key at
    capacity 3 calls [_rehash]; reinserting the third key at capacity 4
    calls it again, and the first call returns with [size_index] advanced by
    two and the capacity 50, which is not the next schedule entry. *)
Lemma rehash_advances_by_one_counterexample :
  reachable example_cab
  /\ put example_ab (str "c") 0 = Return example_cab
  /\ over_load example_cab = true
  /\ exists t',
       rehash example_cab = Ok t'
       /\ setitem example_ab (str "c") 0 = Ok t'
       /\ size_index example_cab = 0%nat
       /\ size_index t' = 2%nat
       /\ TABLE_SIZES example_cab !! 1%nat = Some 4%positive
       /\ table_size t' = 50.
Proof.
  split; [apply example_cab_reachable|].
  split; [reflexivity|]. split; [reflexivity|].
  eexists. split; [vm_compute; reflexivity|].
  repeat split; reflexivity.
Qed.

Lemma rehash_preserves_entries_witness :
  (rehash example_default_abc = Ok example_default_abc_grown
   /\ getitem example_default_abc (str "b") = Return 1
   /\ setitem example_default_abc (str "d") 3 = Ok example_default_abcd)
  /\ getitem example_default_abc_grown (str "b") = Return 1
  /\ size_index example_default_abc_grown = 1%nat
  /\ table_size example_default_abc_grown = 13
  /\ getitem example_default_abcd (str "b") = Return 1.
Proof.
  assert (Hre : rehash example_default_abc = Ok example_default_abc_grown)
    by reflexivity.
  assert (Hset : setitem example_default_abc (str "d") 3
                 = Ok example_default_abcd) by reflexivity.
  split; [split; [exact Hre | split; [reflexivity | exact Hset]]|].
  destruct (rehash_preserves_entries example_default_abc
              (steady_reachable _ example_default_abc_steady))
    as [Hrehash Hother].
  destruct (Hrehash _ Hre) as (_ & _ & _ & _ & _ & _ & Hkeep & Hfit).
  split; [apply Hkeep; reflexivity|].
  split; [apply (Hfit 13%positive); [reflexivity | vm_compute; discriminate]|].
  split; [apply (Hfit 13%positive); [reflexivity | vm_compute; discriminate]|].
  apply (Hother (str "d") 3 _ Hset); [discriminate | reflexivity].
Defined.

(** C6 as stated fails on the schedule [[3; 4; 50]]: when ["d"] is set in a
    table of capacity 3 that holds two keys, [count] is 3 after the write;
    the call returns with the table at capacity 50, the third entry of the
    schedule, and not at 4, the next one. *)
Lemma load_trigger_next_entry_counterexample :
  steady example_ab
  /\ exists tw t',
       put example_ab (str "d") 1 = Return tw
       /\ over_load tw = true
       /\ setitem example_ab (str "d") 1 = Ok t'
       /\ TABLE_SIZES example_ab !! S (size_index example_ab)
          = Some 4%positive
       /\ table_size t' = 50
       /\ size_index t' = 2%nat
       /\ getitem t' (str "d") = Return 1.
Proof.
  split; [apply example_ab_steady|].
  do 2 eexists. split; [reflexivity|]. split; [reflexivity|].
  split; [vm_compute; reflexivity|].
  repeat split; reflexivity.
Qed.

Lemma setitem_load_trigger_witness :
  setitem example_default_abc (str "d") 3 = Ok example_default_abcd
  /\ exists tw,
       put example_default_abc (str "d") 3 = Return tw
       /\ if over_load tw
          then (exists n : positive,
                  TABLE_SIZES example_default_abc
                    !! S (size_index example_default_abc) = Some n
                  /\ (3 * live (array tw) <= 2 * Z.pos n ->
                      size_index example_default_abcd
                      = S (size_index example_default_abc)
                      /\ table_size example_default_abcd = Z.pos n))
               /\ rehash tw = Ok example_default_abcd
               /\ (size_index example_default_abc
                   < size_index example_default_abcd)%nat
               /\ on_schedule example_default_abcd
          else example_default_abcd = tw
               /\ table_size example_default_abcd
                  = table_size example_default_abc
               /\ size_index example_default_abcd
                  = size_index example_default_abc.
Proof.
  assert (H : setitem example_default_abc (str "d") 3
              = Ok example_default_abcd) by reflexivity.
  split; [exact H|].
  exact (setitem_load_trigger example_default_abc (str "d") 3
           example_default_abcd H).
Defined.

(** C4 as stated fails on the schedule [[5]]: the call that sets a fourth
    key raises [FullError] and leaves the key stored, [count] at 4 and
    [size_index] at 1. *)
Lemma table_full_unchanged_counterexample :
  steady example_abc
  /\ setitem example_abc (str "d") 3 = Raise FullError example_abcd_full
  /\ array example_abcd_full <> array example_abc
  /\ count example_abcd_full <> count example_abc
  /\ size_index example_abcd_full <> size_index example_abc
  /\ getitem example_abc (str "d") = Throw KeyError
  /\ getitem example_abcd_full (str "d") = Return 3.
Proof.
  split; [apply example_abc_steady|].
  repeat split; try reflexivity; discriminate.
Qed.

Lemma table_full_effects_witness :
  setitem example_abc (str "d") 3 = Raise FullError example_abcd_full
  /\ ((_hashy_probe example_abc (str "d") true = Throw FullError
       /\ example_abcd_full = example_abc)
      \/ exists tw,
           put example_abc (str "d") 3 = Return tw
           /\ over_load tw = true
           /\ rehash tw = Raise FullError example_abcd_full
           /\ ((length (TABLE_SIZES example_abc)
                <= S (size_index example_abc))%nat ->
               array example_abcd_full = array tw
               /\ count example_abcd_full = count tw
               /\ TABLE_SIZES example_abcd_full = TABLE_SIZES example_abc)).
Proof.
  assert (H : setitem example_abc (str "d") 3
              = Raise FullError example_abcd_full) by reflexivity.
  split; [exact H|].
  exact (proj1 (table_full_effects example_abc) (str "d") 3
           example_abcd_full H).
Defined.

Lemma example_tombstone_steady : steady example_tombstone.
Proof.
  apply (steady_delitem
           (mkTable DEFAULT_TABLE_SIZES 0
              [Empty; Empty; Occupied (str "a") 1; Empty; Empty] 1)
           (str "a")); [|reflexivity].
  apply (steady_setitem (mkTable DEFAULT_TABLE_SIZES 0 (ArrayR 5) 0)
           (str "a") 1); [|reflexivity].
  apply (steady_init None). reflexivity.
Qed.

(** C1. After ["a"] is set, deleted and set again, the table holds one live
    key and [len] is 0: the second [set] ends on the tombstone of the first,
    which is not [None], and does not count it. *)
Theorem count_misses_reused_tombstone :
  steady example_tombstone
  /\ len example_tombstone = 0
  /\ _hashy_probe example_tombstone (str "a") true = Return 2
  /\ ArrayR_get (array example_tombstone) 2 = Return DELETED
  /\ setitem example_tombstone (str "a") 2 = Ok example_reused
  /\ len example_reused = 0
  /\ live (array example_reused) = 1
  /\ getitem example_reused (str "a") = Return 2
  /\ keys example_reused = Return [str "a"].
Proof.
  split; [apply example_tombstone_steady|].
  repeat split; reflexivity.
Qed.

Lemma example_full_reachable : reachable example_full.
Proof.
  apply (reachable_setitem example_abcd_full (str "e") 4);
    [|right; by exists FullError].
  apply (reachable_setitem example_abc (str "d") 3);
    [|right; by exists FullError].
  apply steady_reachable, example_abc_steady.
Qed.

Lemma example_reused_steady : steady example_reused.
Proof.
  apply (steady_setitem example_tombstone (str "a") 2); [|reflexivity].
  apply example_tombstone_steady.
Qed.

(** C3 as stated fails in two states. On the schedule [[5]], when two calls
    of [set] have raised [FullError] and left their entries written, the
    table is above its load factor and the schedule has no further entry:
    after ["a"] is deleted, the [set] of ["a"] writes it and raises
    [FullError] from [_rehash]. On the default schedule, when ["a"] has been
    set, deleted and set again, [count] is 0: after ["a"] is deleted it is
    -1, and the [set] of ["a"] writes it and raises [ValueError] from
    [len(self)]. *)
Lemma delete_reset_counterexample :
  (reachable example_full
   /\ getitem example_full (str "a") = Return 0
   /\ exists t1 t2,
        delitem example_full (str "a") = Ok t1
        /\ over_load t1 = true
        /\ setitem t1 (str "a") 7 = Raise FullError t2)
  /\ (steady example_reused
      /\ getitem example_reused (str "a") = Return 2
      /\ exists t1 t2,
           delitem example_reused (str "a") = Ok t1
           /\ count t1 = -1
           /\ setitem t1 (str "a") 7 = Raise ValueError t2).
Proof.
  split.
  - split; [apply example_full_reachable|]. split; [reflexivity|].
    do 2 eexists. split; [reflexivity|]. split; reflexivity.
  - split; [apply example_reused_steady|]. split; [reflexivity|].
    do 2 eexists. split; [reflexivity|]. split; reflexivity.
Qed.

Lemma keys_values_tombstone_witness :
  array example_tombstone !! 2%nat = Some DELETED
  /\ keys example_tombstone = Throw TypeError
  /\ values example_tombstone = Throw TypeError.
Proof.
  split; [reflexivity|].
  apply (keys_values_tombstone example_tombstone 2). reflexivity.
Defined.

(** * Further properties of the code *)

Section Coverage.

Context {V : Type}.

Implicit Types (t : table V) (arr : list (Slot V)) (k : key) (s : Slot V).

(** ** The slots a probe reaches *)

Lemma probe_path_inj (start step capacity i j : Z) :
  Z.gcd step capacity = 1 ->
  0 <= i < capacity -> 0 <= j < capacity ->
  (start + i * step) mod capacity = (start + j * step) mod capacity ->
  i = j.
Proof.
  intros Hgcd Hi Hj Heq.
  assert (Hdiv : (capacity | (i - j) * step)).
  { apply Z.mod_divide; [lia|].
    replace ((i - j) * step) with ((start + i * step) - (start + j * step))
      by lia.
    rewrite Zminus_mod, Heq, Z.sub_diag. apply Z.mod_0_l. lia. }
  rewrite Z.mul_comm in Hdiv. apply Z.gauss in Hdiv.
  - destruct Hdiv as [q Hq].
    destruct (Z.eq_dec q 0) as [->|Hq0]; [lia|].
    assert (1 <= q \/ q <= -1) as [Hpos|Hneg] by lia; nia.
  - rewrite Z.gcd_comm. exact Hgcd.
Qed.

Lemma elem_of_range (n x : Z) : x ∈ range n <-> 0 <= x < n.
Proof.
  unfold range. rewrite list_elem_of_In, in_map_iff. split.
  - intros (i & <- & Hi%in_seq). lia.
  - intros Hx. exists (Z.to_nat x). split; [lia|]. apply in_seq. lia.
Qed.

Lemma NoDup_range (n : Z) : NoDup (range n).
Proof.
  unfold range. apply NoDup_ListNoDup, Finite.Injective_map_NoDup.
  - intros i j. lia.
  - apply seq_NoDup.
Qed.

Lemma length_range (n : Z) : length (range n) = Z.to_nat n.
Proof. unfold range. by rewrite length_map, length_seq. Qed.

Lemma elem_of_probe_path (start step capacity p : Z) :
  p ∈ probe_path start step capacity
  <-> exists j, 0 <= j < capacity /\ p = (start + j * step) mod capacity.
Proof.
  unfold probe_path. rewrite list_elem_of_In, in_map_iff. split.
  - intros (j & <- & Hj). apply list_elem_of_In, elem_of_range in Hj. eauto.
  - intros (j & Hj & ->). exists j. split; [done|].
    by apply list_elem_of_In, elem_of_range.
Qed.

Lemma NoDup_probe_path (start step capacity : Z) :
  Z.gcd step capacity = 1 -> NoDup (probe_path start step capacity).
Proof.
  intros Hgcd. unfold probe_path.
  assert (Hgen : forall l : list Z,
            NoDup l -> (forall x, x ∈ l -> 0 <= x < capacity) ->
            NoDup (List.map (fun j => (start + j * step) mod capacity) l)).
  { induction l as [|x l IH]; intros Hl Hrange; simpl; [constructor|].
    apply NoDup_cons in Hl as [Hx Hl]. apply NoDup_cons. split.
    - rewrite list_elem_of_In, in_map_iff. intros (y & Heq & Hy).
      apply list_elem_of_In in Hy.
      assert (y = x); [|by subst].
      eapply probe_path_inj; eauto; apply Hrange; by constructor.
    - apply IH; [done|]. intros y Hy. apply Hrange. by constructor. }
  apply Hgen; [apply NoDup_range|]. intros x. apply elem_of_range.
Qed.

Lemma probe_path_Permutation (start step capacity : Z) :
  Z.gcd step capacity = 1 ->
  0 < capacity ->
  probe_path start step capacity ≡ₚ range capacity.
Proof.
  intros Hgcd Hcap. apply submseteq_length_Permutation.
  - apply NoDup_submseteq; [by apply NoDup_probe_path|].
    intros p (j & _ & ->)%elem_of_probe_path. apply elem_of_range.
    apply Z.mod_pos_bound. lia.
  - unfold probe_path. by rewrite length_map.
Qed.

(** X1. When the step and the capacity are coprime, the path of a probe
    holds every slot of the table once. *)
Theorem probe_path_covers (start step capacity : Z) :
  Z.gcd step capacity = 1 ->
  0 < capacity ->
  NoDup (probe_path start step capacity)
  /\ forall p, p ∈ probe_path start step capacity <-> 0 <= p < capacity.
Proof.
  intros Hgcd Hcap. split; [by apply NoDup_probe_path|].
  intros p. by rewrite (probe_path_Permutation _ _ _ Hgcd Hcap), elem_of_range.
Qed.

Lemma hash_loop_Throw (size : Z) (chars : key) (e : exn) :
  forall value a,
    hash_loop size chars value a = Throw e -> e = ZeroDivisionError.
Proof.
  induction chars as [|char rest IH]; intros value a; simpl; [done|].
  unfold py_mod. destruct (size =? 0); simpl; [congruence|].
  destruct (size - 1 =? 0); simpl; [congruence|]. apply IH.
Qed.

Lemma hash2_Throw t k (e : exn) :
  hash2 t k = Throw e -> e = ZeroDivisionError.
Proof.
  unfold hash2. generalize 0 at 1.
  induction k as [|char rest IH]; intros value; simpl; [done|].
  unfold py_mod. destruct (table_size t =? 0); simpl; [congruence|].
  apply IH.
Qed.

Lemma passed_over_all (stop : Z -> bool) (path : list Z) :
  List.find stop path = None -> passed_over stop path = path.
Proof.
  induction path as [|p path IH]; simpl; [done|].
  destruct (stop p); [done|]. intros H. by rewrite IH.
Qed.

Lemma resolution_FullError arr k (path : list Z) (first_tombstone : option Z) :
  resolution arr k true path first_tombstone = Throw FullError ->
  List.find (resolves arr k) path = None /\ first_tombstone = None.
Proof.
  unfold resolution. destruct (List.find (resolves arr k) path) as [p|].
  - destruct (ArrayR_get arr p) as [[| |k' v']|e]; discriminate.
  - by destruct first_tombstone.
Qed.

Lemma insert_probe_FullError_coprime t k (step : Z) :
  hash2 t k = Return step ->
  Z.gcd step (table_size t) = 1 ->
  _hashy_probe t k true = Throw FullError ->
  forall (i : nat) s,
    array t !! i = Some s -> exists k' v, s = Occupied k' v /\ k' <> k.
Proof.
  intros Hstep Hgcd Hprobe i s Hi.
  assert (Hsize : 0 <= Z.of_nat i < table_size t).
  { apply lookup_lt_Some in Hi. unfold table_size. lia. }
  revert Hprobe. unfold _hashy_probe. rewrite Hstep.
  destruct (hash t k) as [start|e] eqn:Estart; cbn [mbind result_bind];
    [|intros [= ->]; unfold hash in Estart;
      by apply hash_loop_Throw in Estart].
  assert (Hstart : 0 <= start < table_size t)
    by (apply (hash_range t k); [done | lia]).
  unfold table_size in *. rewrite Nat2Z.id.
  rewrite (probe_loop_resolution (array t) k true step _ start None)
    by done.
  assert (Hpath : path_from (Z.of_nat (length (array t))) step
                    (length (array t)) start
                  = probe_path start step (Z.of_nat (length (array t)))).
  { rewrite probe_path_path_from by done. by rewrite Nat2Z.id. }
  rewrite Hpath.
  intros [Hfind Htomb]%resolution_FullError.
  rewrite (passed_over_all _ _ Hfind) in Htomb.
  assert (Hin : In (Z.of_nat i)
                  (probe_path start step (Z.of_nat (length (array t))))).
  { apply list_elem_of_In.
    rewrite probe_path_Permutation by (done || lia). by apply elem_of_range. }
  pose proof (List.find_none _ _ Hfind _ Hin) as Hres.
  pose proof (List.find_none _ _ Htomb _ Hin) as Hdel.
  unfold resolves in Hres. unfold is_tombstone in Hdel.
  rewrite (ArrayR_get_of_nat _ _ _ Hi) in Hres, Hdel.
  destruct s as [| |k' v']; [done | done |].
  exists k', v'. split; [done|]. by apply key_eqb_neq.
Qed.

(** X2. With a step coprime to the capacity, an insert probe raises
    [FullError] only when every slot is Occupied by another key: no Empty
    slot and no tombstone is left anywhere in the table. *)
Theorem insert_probe_FullError_table_full t k (step : Z) :
  hash2 t k = Return step ->
  Z.gcd step (table_size t) = 1 ->
  _hashy_probe t k true = Throw FullError ->
  forall (i : nat) s,
    array t !! i = Some s -> exists k' v, s = Occupied k' v /\ k' <> k.
Proof. apply insert_probe_FullError_coprime. Qed.

End Coverage.

Lemma probe_path_covers_witness :
  (Z.gcd 2 5 = 1 /\ 0 < 5)
  /\ NoDup (probe_path 3 2 5)
  /\ forall p, p ∈ probe_path 3 2 5 <-> 0 <= p < 5.
Proof.
  split; [split; [reflexivity | lia]|].
  apply (probe_path_covers 3 2 5); [reflexivity | lia].
Defined.

Lemma insert_probe_FullError_table_full_witness :
  (hash2 example_full (str "f") = Return 2
   /\ Z.gcd 2 (table_size example_full) = 1
   /\ _hashy_probe example_full (str "f") true = Throw FullError)
  /\ forall (i : nat) s,
       array example_full !! i = Some s ->
       exists k' v, s = Occupied k' v /\ k' <> str "f".
Proof.
  split; [repeat split; reflexivity|].
  apply (insert_probe_FullError_table_full example_full (str "f") 2);
    reflexivity.
Defined.

(** ** The capacities of the default schedule *)

Lemma no_divisor_spec (n : Z) (fuel : nat) :
  forall d e,
    0 < d ->
    no_divisor n fuel d = true ->
    d <= e < d + Z.of_nat fuel ->
    ~ (e | n).
Proof.
  induction fuel as [|fuel IH]; intros d e Hd; simpl; [lia|].
  intros [Hhere Hrest]%andb_prop He.
  destruct (Z.eq_dec e d) as [->|Hne].
  - intros Hdiv%Z.mod_divide; [|lia].
    rewrite Hdiv in Hhere. done.
  - apply (IH (d + 1)); [lia | done | lia].
Qed.

Lemma prime_by_trial_division (n : Z) (fuel : nat) :
  1 < n ->
  n < (2 + Z.of_nat fuel) * (2 + Z.of_nat fuel) ->
  no_divisor n fuel 2 = true ->
  Z.prime n.
Proof.
  intros Hn Hbound Hcheck. split; [done|].
  intros m Hm [q Hq].
  assert (Hq1 : 1 < q < n) by nia.
  destruct (Z_lt_ge_dec m (2 + Z.of_nat fuel)) as [Hsmall|Hlarge].
  - apply (no_divisor_spec n fuel 2 m); [lia | done | lia |].
    exists q. done.
  - assert (q < 2 + Z.of_nat fuel) by nia.
    apply (no_divisor_spec n fuel 2 q); [lia | done | lia |].
    exists m. lia.
Qed.

Lemma DEFAULT_TABLE_SIZES_prime (n : positive) :
  n ∈ DEFAULT_TABLE_SIZES -> Z.prime (Z.pos n).
Proof.
  unfold DEFAULT_TABLE_SIZES. intros H.
  repeat (apply elem_of_cons in H as [->|H];
          [match goal with
           | |- Z.prime ?p =>
               apply (prime_by_trial_division p (Z.to_nat (Z.sqrt p)))
           end;
           [lia | vm_compute; reflexivity | vm_compute; reflexivity]|]).
  by apply elem_of_nil in H.
Qed.

Section DefaultSchedule.

Context {V : Type}.

Implicit Types (t : table V) (k : key) (s : Slot V).

(** X3. Every capacity of the default schedule is prime. In a table of
    the default schedule reached by calls that returned, the capacity is
    one of them and the step of every key is coprime to it: an insert probe
    raises [FullError] only when every slot is Occupied by another key, and
    [set] then raises [FullError] and leaves the table as it was. *)
Theorem default_schedule_FullError_table_full t k :
  steady t ->
  TABLE_SIZES t = DEFAULT_TABLE_SIZES ->
  (forall n : positive, n ∈ TABLE_SIZES t -> Z.prime (Z.pos n))
  /\ Z.prime (table_size t)
  /\ (exists step,
        hash2 t k = Return step /\ Z.gcd step (table_size t) = 1)
  /\ (_hashy_probe t k true = Throw FullError ->
      (forall (i : nat) s,
         array t !! i = Some s -> exists k' v, s = Occupied k' v /\ k' <> k)
      /\ forall v : V, setitem t k v = Raise FullError t).
Proof.
  intros (n & Hn & Hsize)%steady_on_schedule Hsizes.
  rewrite Hsizes in *. apply list_elem_of_lookup_2 in Hn.
  pose proof (DEFAULT_TABLE_SIZES_prime n Hn) as Hprime.
  assert (Hcap : 2 <= table_size t).
  { rewrite Hsize. destruct Hprime. lia. }
  destruct (hash2_loop_total (table_size t) k ltac:(lia) 0) as [value Hvalue].
  assert (Hstep : hash2 t k = Return (Z.max 1 value))
    by (unfold hash2; by rewrite Hvalue).
  assert (Hgcd : Z.gcd (Z.max 1 value) (table_size t) = 1).
  { pose proof Hstep as [H1 H2]%hash2_range. specialize (H2 Hcap).
    rewrite Z.gcd_comm, Hsize in *.
    apply Z.coprime_prime_small; [done | lia]. }
  split; [apply DEFAULT_TABLE_SIZES_prime|].
  split; [by rewrite Hsize|].
  split; [by exists (Z.max 1 value)|].
  intros Hprobe. split.
  - by apply (insert_probe_FullError_coprime t k (Z.max 1 value)).
  - intros v. unfold setitem. rewrite setitem_fuel_put.
    apply (put_Throw t k v) in Hprobe. by rewrite Hprobe.
Qed.

End DefaultSchedule.

Lemma example_default_full_steady : steady example_default_full.
Proof.
  apply (steady_after_calls example_default_calls
           (mkTable DEFAULT_TABLE_SIZES 0 (ArrayR 5) 0)).
  - apply (steady_init None). reflexivity.
  - reflexivity.
Qed.

Lemma default_schedule_FullError_table_full_witness :
  (steady example_default_full
   /\ TABLE_SIZES example_default_full = DEFAULT_TABLE_SIZES
   /\ _hashy_probe example_default_full (str "f") true = Throw FullError)
  /\ Z.prime (table_size example_default_full)
  /\ (exists step,
        hash2 example_default_full (str "f") = Return step
        /\ Z.gcd step (table_size example_default_full) = 1)
  /\ (forall (i : nat) s,
        array example_default_full !! i = Some s ->
        exists k' v, s = Occupied k' v /\ k' <> str "f")
  /\ forall v : Z,
       setitem example_default_full (str "f") v
       = Raise FullError example_default_full.
Proof.
  split; [split; [apply example_default_full_steady|split; reflexivity]|].
  destruct (default_schedule_FullError_table_full example_default_full
              (str "f") example_default_full_steady eq_refl)
    as (_ & Hprime & Hstep & Hfull).
  split; [exact Hprime|]. split; [exact Hstep|].
  apply Hfull. reflexivity.
Defined.

Section Lookups.

Context {V : Type}.

Implicit Types (t : table V) (arr : list (Slot V)) (k : key) (s : Slot V).

(** ** Keys that are stored and keys that are not *)

Lemma hashy_probe_lookup_cases t k :
  2 <= table_size t ->
  (exists p v,
     _hashy_probe t k false = Return p
     /\ ArrayR_get (array t) p = Return (Occupied k v))
  \/ _hashy_probe t k false = Throw KeyError.
Proof.
  intros Hsize. rewrite _hashy_probe_arr.
  destruct (probe_arr (array t) k false) as [p|e] eqn:Ep.
  - left. apply probe_arr_found in Ep as [v Hv]. by exists p, v.
  - right. revert Ep. unfold probe_arr. unfold table_size in Hsize.
    destruct (hash_loop_total _ k Hsize 0 31415) as [h Hh]. rewrite Hh.
    destruct (hash2_loop_total (Z.of_nat (length (array t))) k ltac:(lia) 0)
      as [value Hvalue].
    rewrite Hvalue. cbn [mbind result_bind].
    intros ->%probe_lookup_Throw; [done|].
    apply (hash_loop_start _ k); [done|]. intros Harr.
    rewrite Harr in Hsize. simpl in Hsize. lia.
Qed.

Lemma getitem_cases t k :
  2 <= table_size t ->
  (exists v, getitem t k = Return v /\ entry t k v)
  \/ (getitem t k = Throw KeyError
      /\ _hashy_probe t k false = Throw KeyError).
Proof.
  intros [(p & v & Hp & Hv)|Hmiss]%(hashy_probe_lookup_cases t k).
  - left. exists v. unfold getitem. rewrite Hp. simpl. rewrite Hv.
    split; [done|]. apply ArrayR_get_Return in Hv as [_ Hv].
    by exists (Z.to_nat p).
  - right. unfold getitem. by rewrite Hmiss.
Qed.

(** X4. In every state of a table of capacity at least 2, [contains(k)]
    returns, and it returns true exactly when a slot holds [k]; [get(k)]
    then returns the value in that slot, and otherwise raises [KeyError]. *)
Theorem contains_exact t k :
  reachable t ->
  2 <= table_size t ->
  (contains t k = Return true
   /\ exists v, getitem t k = Return v /\ entry t k v)
  \/ (contains t k = Return false
      /\ getitem t k = Throw KeyError
      /\ forall v, ~ entry t k v).
Proof.
  intros Hf%reachable_findable [(v & Hget & Hentry)|[Hget _]]%(getitem_cases t k).
  - left. unfold contains. rewrite Hget. eauto.
  - right. unfold contains. rewrite Hget. split; [done|]. split; [done|].
    intros v Hentry%(entry_getitem _ _ _ Hf). congruence.
Qed.

(** X5. In every state of a table object no key is held by two slots. *)
Theorem reachable_keys_distinct t (i j : nat) k (v v' : V) :
  reachable t ->
  array t !! i = Some (Occupied k v) ->
  array t !! j = Some (Occupied k v') ->
  i = j.
Proof. intros Hf%reachable_findable. by apply findable_distinct. Qed.

(** X6. For a key that no slot holds, in a table of capacity at least 2,
    [get] and [delete] raise [KeyError], [contains] returns false, and
    [delete] leaves the table as it was. *)
Theorem missing_key_KeyError t k :
  2 <= table_size t ->
  (forall v, ~ entry t k v) ->
  getitem t k = Throw KeyError
  /\ contains t k = Return false
  /\ delitem t k = Raise KeyError t.
Proof.
  intros [(v & _ & Hentry)|[Hget Hprobe]]%(getitem_cases t k) Hmiss.
  - by destruct (Hmiss v).
  - unfold contains, delitem. by rewrite Hget, Hprobe.
Qed.

(** ** What [__delitem__] keeps *)

Lemma delitem_other_probe t k t' k' :
  delitem t k = Ok t' ->
  k' <> k ->
  _hashy_probe t' k' false = _hashy_probe t k' false
  /\ forall q, _hashy_probe t k' false = Return q ->
       ArrayR_get (array t') q = ArrayR_get (array t) q.
Proof.
  intros (p & Hp & ->)%delitem_Ok Hne. rewrite !_hashy_probe_arr in *.
  simpl. destruct (probe_arr_found _ _ _ Hp) as [v0 Hv0].
  split.
  - eapply probe_arr_set_same_view; [done|]. simpl.
    assert (key_eqb k k' = false) as -> by (apply key_eqb_neq; congruence).
    done.
  - intros q [v' Hq]%probe_arr_found.
    assert (q <> p).
    { intros ->. rewrite Hv0 in Hq. by injection Hq as ->. }
    apply ArrayR_get_set_ne; [|eapply ArrayR_get_lt|]; try done.
    by eapply ArrayR_get_lt.
Qed.

(** X7. A [delete(k)] that returns changes no other key: for every other
    key [get] and [contains] give after it what they gave before, a value
    or an exception. *)
Theorem delitem_keeps_others t k t' k' :
  delitem t k = Ok t' ->
  k' <> k ->
  getitem t' k' = getitem t k' /\ contains t' k' = contains t k'.
Proof.
  intros Hdel Hne.
  destruct (delitem_other_probe _ _ _ _ Hdel Hne) as [Hprobe Hslot].
  assert (Hget : getitem t' k' = getitem t k').
  { unfold getitem. rewrite Hprobe.
    destruct (_hashy_probe t k' false) as [q|e] eqn:Eq; [|done].
    simpl. by rewrite (Hslot q). }
  split; [done|]. unfold contains. by rewrite Hget.
Qed.

Lemma delitem_entry t k t' :
  findable t -> delitem t k = Ok t' ->
  forall k' v', entry t' k' v' <-> k' <> k /\ entry t k' v'.
Proof.
  intros Hf Hdel k' v'. pose proof Hdel as (p & Hp & ->)%delitem_Ok.
  pose proof Hp as Hp'. rewrite _hashy_probe_arr in Hp'.
  apply probe_arr_found in Hp' as [v0 Hv0].
  pose proof (ArrayR_get_lt _ _ _ Hv0) as Hrange.
  apply ArrayR_get_Return in Hv0 as [_ Hv0].
  unfold entry. simpl. unfold ArrayR_set. split.
  - intros [i Hi]. destruct (decide (i = Z.to_nat p)) as [->|Hne].
    + by rewrite list_lookup_insert_eq in Hi by lia.
    + rewrite list_lookup_insert_ne in Hi by done.
      split; [|by exists i]. intros ->.
      apply Hf in Hi. rewrite Hp in Hi. injection Hi as ->. lia.
  - intros [Hne [i Hi]]. exists i. rewrite list_lookup_insert_ne; [done|].
    intros <-. rewrite Hv0 in Hi. by injection Hi as ->.
Qed.

(** X8. A [delete(k)] that returns removes the entry of [k] and no other,
    lowers [count] and the number of live keys by one, and leaves the
    capacity and [size_index] as they were: it never shrinks or rehashes
    the table. *)
Theorem delitem_removes_key t k t' :
  reachable t ->
  delitem t k = Ok t' ->
  (forall k' v', entry t' k' v' <-> k' <> k /\ entry t k' v')
  /\ count t' = count t - 1
  /\ live (array t') = live (array t) - 1
  /\ table_size t' = table_size t
  /\ size_index t' = size_index t
  /\ TABLE_SIZES t' = TABLE_SIZES t.
Proof.
  intros Hf%reachable_findable Hdel.
  split; [by apply delitem_entry|].
  apply delitem_Ok in Hdel as (p & Hp & ->). simpl.
  rewrite _hashy_probe_arr in Hp.
  apply probe_arr_found in Hp as [v0 [_ Hv0]%ArrayR_get_Return].
  unfold table_size, ArrayR_set. simpl.
  rewrite (live_insert _ _ _ _ Hv0), length_insert. simpl.
  repeat split; lia.
Qed.

End Lookups.

Lemma example_abc_reachable : reachable example_abc.
Proof. apply steady_reachable, example_abc_steady. Qed.

Lemma contains_exact_witness :
  (2 <= table_size example_abc)
  /\ ((contains example_abc (str "b") = Return true
       /\ exists v, getitem example_abc (str "b") = Return v
                    /\ entry example_abc (str "b") v)
      \/ (contains example_abc (str "b") = Return false
          /\ getitem example_abc (str "b") = Throw KeyError
          /\ forall v, ~ entry example_abc (str "b") v)).
Proof.
  assert (H : 2 <= table_size example_abc) by (vm_compute; discriminate).
  split; [exact H|].
  exact (contains_exact example_abc (str "b") example_abc_reachable H).
Defined.

Lemma reachable_keys_distinct_witness :
  (array example_abc !! 3%nat = Some (Occupied (str "b") 1)
   /\ array example_abc !! 3%nat = Some (Occupied (str "b") 1))
  /\ 3%nat = 3%nat.
Proof.
  split; [split; reflexivity|].
  apply (reachable_keys_distinct example_abc 3 3 (str "b") 1 1
           example_abc_reachable); reflexivity.
Defined.

Lemma missing_key_KeyError_witness :
  (2 <= table_size example_fresh
   /\ forall v, ~ entry example_fresh (str "a") v)
  /\ getitem example_fresh (str "a") = Throw KeyError
  /\ contains example_fresh (str "a") = Return false
  /\ delitem example_fresh (str "a") = Raise KeyError example_fresh.
Proof.
  assert (H1 : 2 <= table_size example_fresh) by (vm_compute; discriminate).
  assert (H2 : forall v, ~ entry example_fresh (str "a") v)
    by (intros v; apply (alloc_no_entry (mkTable [5%positive] 0 [] 0) 5)).
  split; [by split|].
  exact (missing_key_KeyError example_fresh (str "a") H1 H2).
Defined.

Lemma delitem_keeps_others_witness :
  exists t',
    delitem example_abc (str "b") = Ok t'
    /\ getitem t' (str "c") = getitem example_abc (str "c")
    /\ contains t' (str "c") = contains example_abc (str "c").
Proof.
  eexists. split; [reflexivity|].
  apply (delitem_keeps_others example_abc (str "b") _ (str "c"));
    [reflexivity | discriminate].
Defined.

Lemma delitem_removes_key_witness :
  exists t',
    delitem example_abc (str "b") = Ok t'
    /\ (forall k' v',
          entry t' k' v' <-> k' <> str "b" /\ entry example_abc k' v')
    /\ count t' = count example_abc - 1
    /\ live (array t') = live (array example_abc) - 1
    /\ table_size t' = table_size example_abc
    /\ size_index t' = size_index example_abc
    /\ TABLE_SIZES t' = TABLE_SIZES example_abc.
Proof.
  eexists. split; [reflexivity|].
  apply (delitem_removes_key example_abc (str "b") _ example_abc_reachable).
  reflexivity.
Defined.

Section Updates.

Context {V : Type}.

Implicit Types (t : table V) (arr : list (Slot V)) (k : key) (s : Slot V).

(** ** Setting a key that is stored

    [__setitem__] calls [len(self)], which raises [ValueError] when
    [__len__] returns a negative number: a call of [__setitem__] that
    leaves [count] as it is returns only when [0 <= count t]. *)

Lemma setitem_fuel_Ok_count fuel t k (v : V) t' :
  setitem_fuel fuel t k v = Ok t' -> 0 <= count t'.
Proof.
  rewrite setitem_fuel_put.
  destruct (put t k v) as [tw|e]; [|done].
  destruct (Z.ltb_spec (count tw) 0) as [|Hcount]; [done|].
  destruct (over_load tw); [|by intros [= <-]].
  destruct fuel as [|fuel]; [done|].
  apply rehash_with_returned with (P := fun t => 0 <= count t).
  - intros t0 n _. done.
  - intros t0 k0 v0 t1.
    apply (setitem_fuel_returned (fun t => 0 <= count t)).
    + intros t2 k2 v2 tw2 H2 [Hc _]%put_count. lia.
    + intros t2 n _. done.
Qed.

Lemma setitem_present t k (v0 v : V) :
  findable t ->
  over_load t = false ->
  0 <= count t ->
  entry t k v0 ->
  exists p : nat,
    array t !! p = Some (Occupied k v0)
    /\ setitem t k v
       = Ok (mkTable (TABLE_SIZES t) (size_index t)
               (<[p:=Occupied k v]> (array t)) (count t)).
Proof.
  intros Hf Hload Hcount [p Hp]. exists p. split; [done|].
  pose proof (Hf _ _ _ Hp) as Hlookup. rewrite _hashy_probe_arr in Hlookup.
  apply probe_arr_insert_of_lookup in Hlookup.
  assert (Hput : put t k v
                 = Return (mkTable (TABLE_SIZES t) (size_index t)
                             (<[p:=Occupied k v]> (array t)) (count t))).
  { unfold put. rewrite _hashy_probe_arr, Hlookup. simpl.
    unfold write. rewrite (ArrayR_get_of_nat _ _ _ Hp). simpl.
    unfold ArrayR_set. by rewrite Nat2Z.id. }
  unfold setitem. rewrite setitem_fuel_put, Hput. simpl.
  assert ((count t <? 0) = false) as -> by (apply Z.ltb_ge; lia).
  assert (over_load (mkTable (TABLE_SIZES t) (size_index t)
                       (<[p:=Occupied k v]> (array t)) (count t)) = false)
    as ->; [|done].
  unfold over_load, len, table_size in *. simpl. by rewrite length_insert.
Qed.

(** X9. In a table reached by calls that returned, [set] on a key that is
    stored returns, whatever is left of the schedule: it puts the value in
    the slot of the key and changes no other slot, nor [count], the
    capacity or [size_index]. *)
Theorem setitem_updates_in_place t k (v0 v : V) :
  steady t ->
  0 <= count t ->
  entry t k v0 ->
  exists p : nat,
    array t !! p = Some (Occupied k v0)
    /\ setitem t k v
       = Ok (mkTable (TABLE_SIZES t) (size_index t)
               (<[p:=Occupied k v]> (array t)) (count t)).
Proof.
  intros Hsteady Hcount. apply setitem_present.
  - by apply reachable_findable, steady_reachable.
  - by apply steady_within_load.
  - done.
Qed.

(** X10. In a table reached by calls that returned, a [set(k, v)] that
    returns can be repeated: the second call returns and leaves the table
    exactly as the first left it. *)
Theorem setitem_idempotent t k (v : V) t' :
  steady t ->
  0 <= count t ->
  setitem t k v = Ok t' ->
  setitem t' k v = Ok t'.
Proof.
  intros Hsteady _ Hset.
  pose proof (reachable_findable _ (steady_reachable _ Hsteady)) as Hf.
  destruct (setitem_present t' k v v) as (p & Hp & ->).
  - by eapply setitem_fuel_Ok_findable.
  - by eapply setitem_fuel_within_load.
  - by eapply setitem_fuel_Ok_count.
  - apply (setitem_fuel_entries _ _ _ _ _ Hf Hset). by left.
  - rewrite list_insert_id by done. by destruct t'.
Qed.

(** X11. Setting two different keys stores the same entries in either
    order: when the four calls return, every key has the same value in
    the two tables, though their slots and capacities may differ. *)
Theorem setitem_commute t k1 k2 (v1 v2 : V) ta tab tb tba :
  reachable t ->
  k1 <> k2 ->
  setitem t k1 v1 = Ok ta -> setitem ta k2 v2 = Ok tab ->
  setitem t k2 v2 = Ok tb -> setitem tb k1 v1 = Ok tba ->
  forall k v, getitem tab k = Return v <-> getitem tba k = Return v.
Proof.
  intros Hf%reachable_findable Hne Ha Hab Hb Hba k v.
  pose proof (setitem_fuel_Ok_findable _ _ _ _ _ Hf Ha) as Hfa.
  pose proof (setitem_fuel_Ok_findable _ _ _ _ _ Hf Hb) as Hfb.
  pose proof (setitem_fuel_Ok_findable _ _ _ _ _ Hfa Hab) as Hfab.
  pose proof (setitem_fuel_Ok_findable _ _ _ _ _ Hfb Hba) as Hfba.
  assert (Hentry : entry tab k v <-> entry tba k v).
  { rewrite (setitem_fuel_entries _ _ _ _ _ Hfa Hab),
      (setitem_fuel_entries _ _ _ _ _ Hfb Hba),
      (setitem_fuel_entries _ _ _ _ _ Hf Ha),
      (setitem_fuel_entries _ _ _ _ _ Hf Hb).
    split; intros [[-> ->]|[? [[-> ->]|[? ?]]]]; auto 6. }
  split; intros Hget%getitem_entry; apply entry_getitem; try done;
    by apply Hentry.
Qed.

End Updates.

Lemma setitem_updates_in_place_witness :
  (0 <= count example_abc /\ entry example_abc (str "b") 1)
  /\ exists p : nat,
       array example_abc !! p = Some (Occupied (str "b") 1)
       /\ setitem example_abc (str "b") 9
          = Ok (mkTable (TABLE_SIZES example_abc) (size_index example_abc)
                  (<[p:=Occupied (str "b") 9]> (array example_abc))
                  (count example_abc)).
Proof.
  assert (H1 : 0 <= count example_abc) by (vm_compute; discriminate).
  assert (H2 : entry example_abc (str "b") 1) by (by exists 3%nat).
  split; [by split|].
  exact (setitem_updates_in_place example_abc (str "b") 1 9
           example_abc_steady H1 H2).
Defined.

Lemma setitem_idempotent_witness :
  setitem example_default_abc (str "d") 3 = Ok example_default_abcd
  /\ setitem example_default_abcd (str "d") 3 = Ok example_default_abcd.
Proof.
  assert (H : setitem example_default_abc (str "d") 3
              = Ok example_default_abcd) by reflexivity.
  split; [exact H|].
  apply (setitem_idempotent example_default_abc (str "d") 3
           example_default_abcd example_default_abc_steady); [|exact H].
  vm_compute. discriminate.
Defined.

Lemma setitem_commute_witness :
  exists ta tab tb tba,
    (setitem example_fresh (str "a") 1 = Ok ta
     /\ setitem ta (str "f") 2 = Ok tab
     /\ setitem example_fresh (str "f") 2 = Ok tb
     /\ setitem tb (str "a") 1 = Ok tba)
    /\ array tab <> array tba
    /\ forall k v, getitem tab k = Return v <-> getitem tba k = Return v.
Proof.
  do 4 eexists.
  assert (Hfresh : reachable example_fresh)
    by (apply (reachable_init (Some [5%positive])); reflexivity).
  split; [repeat split; reflexivity|].
  split; [discriminate|].
  eapply (setitem_commute example_fresh (str "a") (str "f") 1 2);
    [exact Hfresh | discriminate | reflexivity..].
Defined.

Section Counts.

Context {V : Type}.

Implicit Types (t : table V) (arr : list (Slot V)) (k : key) (s : Slot V).

(** ** [count], the live keys and the capacity *)

Lemma live_le_length arr : live arr <= Z.of_nat (length arr).
Proof.
  induction arr as [|s arr IH]; [done|].
  rewrite live_cons. change (length (s :: arr)) with (S (length arr)).
  destruct (is_occupied s); lia.
Qed.

Lemma length_stored_keys arr : Z.of_nat (length (stored_keys arr)) = live arr.
Proof.
  induction arr as [|s arr IH]; [done|].
  rewrite live_cons, <- IH. destruct s as [| |k v].
  - change (stored_keys (Empty :: arr)) with (stored_keys arr). simpl. lia.
  - change (stored_keys (DELETED :: arr)) with (stored_keys arr). simpl. lia.
  - change (stored_keys (Occupied k v :: arr)) with (k :: stored_keys arr).
    cbn [length is_occupied]. lia.
Qed.

Lemma elem_of_stored_keys arr k :
  k ∈ stored_keys arr <-> exists v, Occupied k v ∈ arr.
Proof.
  unfold stored_keys. rewrite list_elem_of_omap. split.
  - intros ([| |k' v] & Hin & Hk); try done.
    injection Hk as ->. by exists v.
  - intros [v Hin]. by exists (Occupied k v).
Qed.

Lemma live_zero arr :
  live arr = 0 <-> forall k v, Occupied k v ∉ arr.
Proof.
  induction arr as [|s arr IH].
  - split; [|done]. intros _ k v. apply not_elem_of_nil.
  - rewrite live_cons. pose proof (live_nonneg arr). split.
    + intros H0 k v [<-|Hin]%elem_of_cons; [simpl in H0; lia|].
      destruct (is_occupied s); [lia|]. by eapply IH; [lia|].
    + intros Hno. destruct s as [| |k v]; simpl.
      * apply IH. intros k v Hin. apply (Hno k v). by right.
      * apply IH. intros k v Hin. apply (Hno k v). by right.
      * destruct (Hno k v). by left.
Qed.

Lemma setitem_fuel_counted fuel t k (v : V) t' :
  no_tombstone (array t) /\ count t = live (array t) ->
  setitem_fuel fuel t k v = Ok t' ->
  no_tombstone (array t') /\ count t' = live (array t').
Proof.
  apply (setitem_fuel_returned
           (fun t => no_tombstone (array t) /\ count t = live (array t))).
  - apply put_counted.
  - intros t0 n _. split; [apply ArrayR_no_tombstone|].
    simpl. by rewrite live_ArrayR.
Qed.

Lemma grown_counted t :
  grown t -> no_tombstone (array t) /\ count t = live (array t).
Proof.
  induction 1 as [sizes t Hinit|t k v t' _ IH Hset|t t' _ IH Hre].
  - apply init_Return in Hinit as (n & _ & ->). simpl.
    split; [apply ArrayR_no_tombstone | by rewrite live_ArrayR].
  - by eapply setitem_fuel_counted.
  - unfold rehash in Hre. split.
    + by eapply rehash_with_no_tombstone.
    + by eapply rehash_with_counted.
Qed.

Lemma grown_steady t : grown t -> steady t.
Proof.
  induction 1.
  - by eapply steady_init.
  - by eapply steady_setitem.
  - by eapply steady_rehash.
Qed.

(** X12. As long as nothing was deleted (the table was built by calls of
    [set] and [_rehash] that returned), the table holds no tombstone,
    [keys()] returns, and [len()] is the number of keys it returns, which
    are the keys that slots hold. *)
Theorem grown_len_counts_keys t :
  grown t ->
  no_tombstone (array t)
  /\ exists ks,
       keys t = Return ks
       /\ len t = Z.of_nat (length ks)
       /\ forall k, k ∈ ks <-> exists v, entry t k v.
Proof.
  intros [Hno Hcount]%grown_counted. split; [done|].
  exists (stored_keys (array t)).
  split; [by apply keys_values_no_tombstone|].
  split; [unfold len; by rewrite length_stored_keys|].
  intros k. rewrite elem_of_stored_keys.
  split; intros [v Hv]; exists v; by apply entry_elem_of.
Qed.

(** X13. In a table reached by calls that returned, also with deletions,
    [count] never exceeds the number of live keys, which never exceeds the
    capacity, and [is_full()] is false. *)
Theorem steady_count_bounds t :
  steady t ->
  count t <= live (array t) <= table_size t /\ is_full t = false.
Proof.
  intros Hsteady.
  assert (Hcount : count t <= live (array t)).
  { induction Hsteady as [sizes t Hinit|t k v t' _ IH Hset|t k t' _ IH Hdel
                         |t t' _ IH Hre].
    - apply init_Return in Hinit as (n & _ & ->). simpl.
      by rewrite live_ArrayR.
    - revert Hset.
      apply (setitem_fuel_returned (fun t => count t <= live (array t)));
        [| |done].
      + intros t0 k0 v0 tw H0
          (p & s0 & _ & [_ Hs0]%ArrayR_get_Return & _ & ->)%put_Return.
        simpl. unfold ArrayR_set. rewrite (live_insert _ _ _ _ Hs0). simpl.
        destruct s0; simpl; lia.
      + intros t0 n _. simpl. by rewrite live_ArrayR.
    - apply delitem_Ok in Hdel as (p & Hp & ->). simpl.
      rewrite _hashy_probe_arr in Hp.
      apply probe_arr_found in Hp as [v0 [_ Hv0]%ArrayR_get_Return].
      unfold ArrayR_set. rewrite (live_insert _ _ _ _ Hv0). simpl. lia.
    - unfold rehash in Hre. apply rehash_with_counted in Hre. lia. }
  pose proof (live_le_length (array t)) as Hlive.
  pose proof (steady_within_load _ Hsteady) as Hload.
  destruct (steady_on_schedule _ Hsteady) as (n & _ & Hsize).
  unfold is_full, over_load, len in *. apply Z.ltb_ge in Hload.
  split; [unfold table_size; lia|]. apply Z.eqb_neq. lia.
Qed.

(** X14. As long as nothing was deleted, [is_empty()] is true exactly when
    no slot holds a key. *)
Theorem grown_is_empty t :
  grown t ->
  is_empty t = true <-> forall k v, ~ entry t k v.
Proof.
  intros [_ Hcount]%grown_counted. unfold is_empty.
  rewrite Z.eqb_eq, Hcount, live_zero.
  split; intros H k v; specialize (H k v); by rewrite entry_elem_of in *.
Qed.

End Counts.

Lemma example_default_abc_grown_table : grown example_default_abc.
Proof.
  apply (grown_setitem
           (mkTable DEFAULT_TABLE_SIZES 0
              [Empty; Empty; Occupied (str "a") 0; Occupied (str "b") 1;
               Empty] 2)
           (str "c") 2); [|reflexivity].
  apply (grown_setitem
           (mkTable DEFAULT_TABLE_SIZES 0
              [Empty; Empty; Occupied (str "a") 0; Empty; Empty] 1)
           (str "b") 1); [|reflexivity].
  apply (grown_setitem (mkTable DEFAULT_TABLE_SIZES 0 (ArrayR 5) 0)
           (str "a") 0); [|reflexivity].
  apply (grown_init None). reflexivity.
Qed.

Lemma grown_len_counts_keys_witness :
  no_tombstone (array example_default_abc)
  /\ exists ks,
       keys example_default_abc = Return ks
       /\ len example_default_abc = Z.of_nat (length ks)
       /\ forall k, k ∈ ks <-> exists v, entry example_default_abc k v.
Proof.
  exact (grown_len_counts_keys example_default_abc
           example_default_abc_grown_table).
Defined.

Lemma steady_count_bounds_witness :
  count example_tombstone <= live (array example_tombstone)
                          <= table_size example_tombstone
  /\ is_full example_tombstone = false.
Proof.
  exact (steady_count_bounds example_tombstone example_tombstone_steady).
Defined.

Lemma grown_is_empty_witness :
  is_empty example_default_abc = true
  <-> forall k v, ~ entry example_default_abc k v.
Proof.
  exact (grown_is_empty example_default_abc example_default_abc_grown_table).
Defined.

Section Tombstones.

Context {V : Type}.

Implicit Types (t : table V) (arr items : list (Slot V)) (k : key)
  (s : Slot V).

(** ** Tombstones *)

Lemma delitem_counts t k t' :
  delitem t k = Ok t' ->
  count t' = count t - 1
  /\ live (array t') = live (array t) - 1
  /\ table_size t' = table_size t.
Proof.
  intros (p & Hp & ->)%delitem_Ok. simpl.
  rewrite _hashy_probe_arr in Hp.
  apply probe_arr_found in Hp as [v0 [_ Hv0]%ArrayR_get_Return].
  unfold table_size, ArrayR_set. simpl.
  rewrite (live_insert _ _ _ _ Hv0), length_insert. simpl. lia.
Qed.

Lemma put_after_delete t k t1 (v2 : V) :
  findable t ->
  delitem t k = Ok t1 ->
  exists q : Z,
    ArrayR_get (array t1) q = Return DELETED
    /\ put t1 k v2
       = Return (mkTable (TABLE_SIZES t1) (size_index t1)
                   (ArrayR_set (array t1) q (Occupied k v2)) (count t1)).
Proof.
  intros Hf Hdel.
  pose proof (delitem_entry _ _ _ Hf Hdel) as Hentries.
  pose proof Hdel as (p & Hp & Ht1)%delitem_Ok.
  rewrite _hashy_probe_arr in Hp.
  destruct (probe_arr_insert_after_delete _ _ _ Hp) as (q & Hq & Hslot).
  assert (Harr : array t1 = ArrayR_set (array t) p DELETED) by (by subst t1).
  rewrite <- Harr in Hq, Hslot.
  destruct Hslot as [Hslot|[v' [_ Hv']%ArrayR_get_Return]].
  - exists q. split; [done|].
    unfold put. rewrite _hashy_probe_arr, Hq. simpl.
    unfold write. by rewrite Hslot.
  - assert (entry t1 k v') as [Hne _]%Hentries by (by exists (Z.to_nat q)).
    done.
Qed.

Lemma setitem_after_delete t k t1 (v2 : V) :
  findable t ->
  over_load t = false ->
  1 <= count t ->
  delitem t k = Ok t1 ->
  exists q : Z,
    ArrayR_get (array t1) q = Return DELETED
    /\ setitem t1 k v2
       = Ok (mkTable (TABLE_SIZES t1) (size_index t1)
               (ArrayR_set (array t1) q (Occupied k v2)) (count t1)).
Proof.
  intros Hf Hload Hcount1 Hdel.
  destruct (delitem_counts _ _ _ Hdel) as (Hcount & _ & Hsize).
  destruct (put_after_delete _ _ _ v2 Hf Hdel) as (q & Hq & Hput).
  exists q. split; [done|].
  unfold setitem. rewrite setitem_fuel_put, Hput. simpl.
  assert ((count t1 <? 0) = false) as -> by (apply Z.ltb_ge; lia).
  assert (over_load (mkTable (TABLE_SIZES t1) (size_index t1)
                       (ArrayR_set (array t1) q (Occupied k v2))
                       (count t1)) = false) as ->; [|done].
  unfold over_load, len, table_size in *. simpl.
  rewrite ArrayR_set_length. apply Z.ltb_ge. apply Z.ltb_ge in Hload. lia.
Qed.

(** X15. In a table reached by calls that returned, with [count] at least
    1, deleting a stored key, setting it again and deleting it again all
    return; they remove the entry of the key and no other, and leave
    [count] lower by two: each such round takes [len()] one further below
    the number of live keys, and in the end below zero. *)
Theorem delete_set_delete_count t k (v v2 : V) :
  steady t ->
  1 <= count t ->
  getitem t k = Return v ->
  exists t1 t2 t3,
    delitem t k = Ok t1
    /\ setitem t1 k v2 = Ok t2
    /\ delitem t2 k = Ok t3
    /\ count t3 = count t - 2
    /\ live (array t3) = live (array t) - 1
    /\ forall k' v', entry t3 k' v' <-> k' <> k /\ entry t k' v'.
Proof.
  intros Hsteady Hcount Hget.
  pose proof (reachable_findable _ (steady_reachable _ Hsteady)) as Hf.
  pose proof (steady_within_load _ Hsteady) as Hload.
  destruct (delitem t k) as [t1|e t1|] eqn:Hdel.
  2,3: unfold delitem, getitem in *;
       destruct (_hashy_probe t k false); done.
  pose proof (findable_delitem _ _ _ Hf Hdel) as Hf1.
  destruct (setitem_after_delete _ _ _ v2 Hf Hload Hcount Hdel)
    as (q & Hq & Hset).
  set (t2 := mkTable (TABLE_SIZES t1) (size_index t1)
               (ArrayR_set (array t1) q (Occupied k v2)) (count t1)) in *.
  pose proof (setitem_fuel_Ok_findable _ _ _ _ _ Hf1 Hset) as Hf2.
  pose proof (setitem_fuel_entries _ _ _ _ _ Hf1 Hset) as Hentries2.
  assert (Hk2 : entry t2 k v2) by (apply Hentries2; by left).
  destruct Hk2 as [i Hi]. pose proof (Hf2 _ _ _ Hi) as Hprobe2.
  assert (Hdel2 : delitem t2 k
                  = Ok (mkTable (TABLE_SIZES t2) (size_index t2)
                          (ArrayR_set (array t2) (Z.of_nat i) DELETED)
                          (count t2 - 1)))
    by (unfold delitem; by rewrite Hprobe2).
  eexists t1, t2, _. split; [done|]. split; [done|]. split; [exact Hdel2|].
  destruct (delitem_counts _ _ _ Hdel) as (Hc1 & Hl1 & _).
  destruct (delitem_counts _ _ _ Hdel2) as (Hc3 & Hl3 & _).
  split; [simpl in *; lia|]. split.
  - rewrite Hl3. subst t2. simpl. unfold ArrayR_set.
    apply ArrayR_get_Return in Hq as [_ Hq].
    rewrite (live_insert _ _ _ _ Hq). simpl. lia.
  - intros k' v'.
    rewrite (delitem_entry _ _ _ Hf2 Hdel2), Hentries2,
      (delitem_entry _ _ _ Hf Hdel).
    split; [intros [? [[? ?]|[? ?]]]|intros [? ?]]; auto.
    done.
Qed.

Lemma reinsert_tombstone (set : table V -> key -> V -> outcome V) items :
  DELETED ∈ items -> forall t t', reinsert set items t <> Ok t'.
Proof.
  induction items as [|[| |k v] rest IH]; intros Hin t t'; simpl.
  - by apply elem_of_nil in Hin.
  - apply elem_of_cons in Hin as [[=]|Hin]. by apply IH.
  - done.
  - apply elem_of_cons in Hin as [[=]|Hin].
    destruct (set t k v); [by apply IH | done | done].
Qed.

Lemma rehash_with_tombstone (set : table V -> key -> V -> outcome V) t t' :
  DELETED ∈ array t -> rehash_with set t <> Ok t'.
Proof.
  intros Hin. rewrite rehash_with_advance.
  destruct (_ <=? _)%nat; [done|].
  destruct (TABLE_SIZES t !! S (size_index t)); [|done].
  by apply reinsert_tombstone.
Qed.

(** X16. [_rehash] never returns from a table that holds a tombstone: it
    raises, at the latest with [TypeError] when its loop unpacks the
    tombstone. So does a [set] whose write takes [count] above 2/3 of the
    capacity while a tombstone is left in the array. *)
Theorem rehash_tombstone_raises t :
  (forall i : nat,
     array t !! i = Some DELETED -> exists e t', rehash t = Raise e t')
  /\ (forall k (v : V) tw (i : nat),
        put t k v = Return tw ->
        over_load tw = true ->
        array tw !! i = Some DELETED ->
        exists e t', setitem t k v = Raise e t').
Proof.
  split.
  - intros i Hi. destruct (rehash t) as [t'|e t'|] eqn:E.
    + apply rehash_with_tombstone in E; [done|].
      by apply list_elem_of_lookup_2 in Hi.
    + eauto.
    + by apply rehash_terminates in E.
  - intros k v tw i Hput Hload Hi.
    destruct (setitem t k v) as [t'|e t'|] eqn:E.
    + exfalso. revert E. unfold setitem.
      assert ((count tw <? 0) = false) as Hcount.
      { pose proof (table_size_nonneg tw). apply Z.ltb_ge.
        unfold over_load, len in Hload. apply Z.ltb_lt in Hload. lia. }
      rewrite setitem_fuel_put, Hput, Hcount, Hload.
      unfold enough_fuel. simpl.
      apply rehash_with_tombstone. by apply list_elem_of_lookup_2 in Hi.
    + eauto.
    + by apply setitem_terminates in E.
Qed.

(** X17. Between two rehashes no slot becomes Empty again: after a
    [delete], or a [set] that returns at the same [size_index], the
    capacity is unchanged and every slot that is Empty was Empty before. *)
Theorem empty_slots_only_shrink t t' :
  (exists k, delitem t k = Ok t')
  \/ (exists k v, setitem t k v = Ok t' /\ size_index t' = size_index t) ->
  table_size t' = table_size t
  /\ forall i : nat, array t' !! i = Some Empty -> array t !! i = Some Empty.
Proof.
  assert (Hinsert : forall arr (p : Z) s,
            s <> Empty -> forall i : nat,
              ArrayR_set arr p s !! i = Some Empty -> arr !! i = Some Empty).
  { intros arr p s Hs i. unfold ArrayR_set.
    destruct (decide (i = Z.to_nat p)) as [->|Hne].
    - destruct (decide (Z.to_nat p < length arr)%nat).
      + rewrite list_lookup_insert_eq by done. congruence.
      + by rewrite list_insert_ge by lia.
    - by rewrite list_lookup_insert_ne. }
  intros [[k Hdel]|(k & v & Hset & Hindex)].
  - apply delitem_Ok in Hdel as (p & _ & ->).
    split; [unfold table_size; simpl; by rewrite ArrayR_set_length|].
    simpl. by apply Hinsert.
  - revert Hset. unfold setitem. rewrite setitem_fuel_put.
    destruct (put t k v) as [tw|e] eqn:Eput; [|done].
    pose proof (put_count _ _ _ _ Eput) as (_ & Hindexw & _).
    destruct (count tw <? 0); [done|].
    destruct (over_load tw).
    + unfold enough_fuel. simpl. intros H.
      destruct (rehash_with_schedule _ tw t' ltac:(rewrite H; by left)).
      lia.
    + intros [= <-]. split; [by eapply put_table_size|].
      apply put_Return in Eput as (p & s0 & _ & _ & _ & ->). simpl.
      by apply Hinsert.
Qed.

End Tombstones.

Lemma delete_set_delete_count_witness :
  (1 <= count example_abc /\ getitem example_abc (str "b") = Return 1)
  /\ exists t1 t2 t3,
       delitem example_abc (str "b") = Ok t1
       /\ setitem t1 (str "b") 7 = Ok t2
       /\ delitem t2 (str "b") = Ok t3
       /\ count t3 = count example_abc - 2
       /\ live (array t3) = live (array example_abc) - 1
       /\ forall k' v',
            entry t3 k' v' <-> k' <> str "b" /\ entry example_abc k' v'.
Proof.
  assert (H1 : 1 <= count example_abc) by (vm_compute; discriminate).
  split; [split; [exact H1 | reflexivity]|].
  apply (delete_set_delete_count example_abc (str "b") 1 7
           example_abc_steady H1).
  reflexivity.
Defined.

Lemma rehash_tombstone_raises_witness :
  (array example_tombstone !! 2%nat = Some DELETED
   /\ exists e t', rehash example_tombstone = Raise e t')
  /\ (exists tw,
        put example_dbc (str "e") 4 = Return tw
        /\ over_load tw = true
        /\ array tw !! 2%nat = Some DELETED)
  /\ exists e t', setitem example_dbc (str "e") 4 = Raise e t'.
Proof.
  split; [split; [reflexivity|]|split].
  - apply (proj1 (rehash_tombstone_raises example_tombstone) 2%nat).
    reflexivity.
  - eexists. repeat split; reflexivity.
  - eapply (proj2 (rehash_tombstone_raises example_dbc) (str "e") 4 _ 2%nat);
      reflexivity.
Defined.

Lemma empty_slots_only_shrink_witness :
  exists t',
    delitem example_abc (str "b") = Ok t'
    /\ table_size t' = table_size example_abc
    /\ forall i : nat,
         array t' !! i = Some Empty -> array example_abc !! i = Some Empty.
Proof.
  eexists. split; [reflexivity|].
  apply (empty_slots_only_shrink example_abc). left.
  exists (str "b"). reflexivity.
Defined.

Section NegativeCount.

Context {V : Type}.

Implicit Types (t : table V) (arr items : list (Slot V)) (k : key)
  (s : Slot V) (set : table V -> key -> V -> outcome V).

(** ** [len(self)] on a negative [count] *)

Lemma probe_loop_Throw arr k (is_insert : bool) (step_size : Z) (n : nat) :
  forall position first_deleted (e : exn),
    probe_loop arr k is_insert step_size n position first_deleted = Throw e ->
    e <> ValueError.
Proof.
  induction n as [|n IH]; intros position first_deleted e; simpl.
  - destruct is_insert, first_deleted; by intros [= <-].
  - unfold ArrayR_get. destruct (position <? 0); [by intros [= <-]|].
    destruct (arr !! Z.to_nat position) as [[| |k' v']|]; simpl.
    + destruct is_insert; by intros [= <-].
    + apply IH.
    + destruct (key_eqb k' k); [done | apply IH].
    + by intros [= <-].
Qed.

Lemma put_Throw_not_ValueError t k (v : V) (e : exn) :
  put t k v = Throw e -> e <> ValueError.
Proof.
  intros Hprobe%put_Throw. revert Hprobe. unfold _hashy_probe.
  destruct (hash t k) as [position|e'] eqn:Eh; cbn [mbind result_bind].
  - destruct (hash2 t k) as [step_size|e'] eqn:Eh2; cbn [mbind result_bind].
    + apply probe_loop_Throw.
    + intros [= ->]. by apply hash2_Throw in Eh2 as ->.
  - intros [= ->]. unfold hash in Eh. by apply hash_loop_Throw in Eh as ->.
Qed.

Lemma reinsert_not_ValueError set items :
  (forall t k v t', 0 <= count t -> set t k v <> Raise ValueError t') ->
  (forall t k v t', 0 <= count t -> set t k v = Ok t' -> 0 <= count t') ->
  forall t t', 0 <= count t -> reinsert set items t <> Raise ValueError t'.
Proof.
  intros Hset Hcount.
  induction items as [|[| |k v] rest IH]; intros t t' Ht; simpl; try done.
  - by apply IH.
  - destruct (set t k v) as [t1|e t1|] eqn:E; [| |done].
    + apply IH. by apply (Hcount t k v).
    + rewrite <- E. by apply Hset.
Qed.

Lemma setitem_fuel_not_ValueError fuel :
  forall t k (v : V) t',
    0 <= count t -> setitem_fuel fuel t k v <> Raise ValueError t'.
Proof.
  induction fuel as [|fuel IH]; intros t k v t' Ht;
    rewrite setitem_fuel_put;
    destruct (put t k v) as [tw|e] eqn:Eput;
    try (apply put_Throw_not_ValueError in Eput; congruence);
    pose proof (put_count _ _ _ _ Eput) as ([Hcount _] & _);
    (destruct (Z.ltb_spec (count tw) 0); [lia|]);
    (destruct (over_load tw); [|done]).
  - done.
  - rewrite rehash_with_advance.
    destruct (_ <=? _)%nat; [done|].
    destruct (TABLE_SIZES tw !! S (size_index tw)) as [n|]; [|done].
    apply reinsert_not_ValueError; [apply IH | | done].
    intros t0 k0 v0 t1 _. apply setitem_fuel_Ok_count.
Qed.

(** X25. In any state of a table object with a stored key and a [count]
    of 0 or less, [delete(k)] returns and the [set(k, v2)] that follows
    raises [ValueError] from [len(self)], when it has written its entry:
    [get(k)] then returns [v2], the other entries are as they were and
    [count] is negative. *)
Theorem delete_reset_ValueError t k (v v2 : V) :
  reachable t ->
  count t <= 0 ->
  getitem t k = Return v ->
  exists t1 t2,
    delitem t k = Ok t1
    /\ setitem t1 k v2 = Raise ValueError t2
    /\ count t2 = count t - 1
    /\ getitem t2 k = Return v2
    /\ forall k' v', k' <> k -> entry t2 k' v' <-> entry t k' v'.
Proof.
  intros Hf%reachable_findable Hcount Hget.
  destruct (delitem t k) as [t1|e t1|] eqn:Hdel.
  2,3: unfold delitem, getitem in *;
       destruct (_hashy_probe t k false); done.
  pose proof (findable_delitem _ _ _ Hf Hdel) as Hf1.
  destruct (delitem_counts _ _ _ Hdel) as (Hc1 & _ & _).
  destruct (put_after_delete _ _ _ v2 Hf Hdel) as (q & _ & Hput).
  set (t2 := mkTable (TABLE_SIZES t1) (size_index t1)
               (ArrayR_set (array t1) q (Occupied k v2)) (count t1)) in *.
  exists t1, t2. split; [done|]. split; [|split; [|split]].
  - unfold setitem. rewrite setitem_fuel_put, Hput.
    destruct (Z.ltb_spec (count t2) 0) as [|Hge]; [done|].
    simpl in Hge. lia.
  - simpl. lia.
  - apply entry_getitem; [by eapply findable_put|].
    apply (put_entry _ _ _ _ Hf1 Hput). by left.
  - intros k' v' Hne.
    rewrite (put_entry _ _ _ _ Hf1 Hput), (delitem_entry _ _ _ Hf Hdel).
    split; [intros [[? _]|[_ [_ ?]]]; done|]. intros ?. by right.
Qed.

(** X26. [set] raises [ValueError] exactly when its probe and its write
    have succeeded and [count] is negative after the write; the table it
    leaves is the written one. A [set] on a table whose [count] is not
    negative never raises [ValueError], and neither does [_rehash],
    whatever the [count]. *)
Theorem setitem_ValueError t k (v : V) t' :
  (setitem t k v = Raise ValueError t'
   <-> put t k v = Return t' /\ count t' < 0)
  /\ (0 <= count t -> setitem t k v <> Raise ValueError t')
  /\ rehash t <> Raise ValueError t'.
Proof.
  assert (Hrehash : forall fuel t0,
            rehash_with (setitem_fuel fuel) t0 <> Raise ValueError t').
  { intros fuel t0. rewrite rehash_with_advance.
    destruct (_ <=? _)%nat; [done|].
    destruct (TABLE_SIZES t0 !! S (size_index t0)) as [n|]; [|done].
    apply reinsert_not_ValueError; [| |done].
    - intros t1 k1 v1 t2. apply setitem_fuel_not_ValueError.
    - intros t1 k1 v1 t2 _. apply setitem_fuel_Ok_count. }
  split; [|split].
  - unfold setitem. rewrite setitem_fuel_put.
    destruct (put t k v) as [tw|e] eqn:Eput.
    + destruct (Z.ltb_spec (count tw) 0) as [Hneg|Hge].
      * split; [by intros [= <-] | by intros [[= <-] _]].
      * split.
        -- destruct (over_load tw); [|done].
           unfold enough_fuel. simpl. intros H. by apply Hrehash in H.
        -- intros [[= <-] ?]. lia.
    + apply put_Throw_not_ValueError in Eput.
      split; [intros [= -> _]; done | by intros [[=] _]].
  - apply setitem_fuel_not_ValueError.
  - apply Hrehash.
Qed.

End NegativeCount.

Lemma delete_reset_ValueError_witness :
  (steady example_reused
   /\ count example_reused <= 0
   /\ getitem example_reused (str "a") = Return 2)
  /\ exists t1 t2,
       delitem example_reused (str "a") = Ok t1
       /\ setitem t1 (str "a") 7 = Raise ValueError t2
       /\ count t2 = count example_reused - 1
       /\ getitem t2 (str "a") = Return 7
       /\ forall k' v',
            k' <> str "a" -> entry t2 k' v' <-> entry example_reused k' v'.
Proof.
  assert (H1 : count example_reused <= 0) by (vm_compute; discriminate).
  split; [split; [apply example_reused_steady|split; [exact H1|reflexivity]]|].
  apply (delete_reset_ValueError example_reused (str "a") 2 7
           (steady_reachable _ example_reused_steady) H1).
  reflexivity.
Defined.

Lemma example_deleted_again_steady : steady example_deleted_again.
Proof.
  apply (steady_delitem example_reused (str "a")); [|reflexivity].
  apply example_reused_steady.
Qed.

Lemma setitem_ValueError_witness :
  steady example_deleted_again
  /\ exists t',
       setitem example_deleted_again (str "a") 7 = Raise ValueError t'
       /\ put example_deleted_again (str "a") 7 = Return t'
       /\ count t' < 0
       /\ setitem example_reused (str "b") 1 <> Raise ValueError t'
       /\ rehash example_deleted_again <> Raise ValueError t'.
Proof.
  split; [apply example_deleted_again_steady|].
  eexists. split; [reflexivity|].
  split; [|split; [|split]].
  - eapply (proj1 (setitem_ValueError example_deleted_again (str "a") 7 _)).
    reflexivity.
  - eapply (proj1 (setitem_ValueError example_deleted_again (str "a") 7 _)).
    reflexivity.
  - apply (proj2 (setitem_ValueError example_reused (str "b") 1 _)).
    vm_compute. discriminate.
  - apply (proj2 (setitem_ValueError example_deleted_again (str "a") 7 _)).
Defined.

Section Listing.

Context {V : Type}.

Implicit Types (t : table V) (arr items : list (Slot V)) (k : key)
  (s : Slot V).

(** ** Listing the entries *)

Lemma stored_keys_items arr : stored_keys arr = (stored_items arr).*1.
Proof.
  induction arr as [|[| |k v] arr IH]; [done|exact IH|exact IH|].
  change (stored_keys (Occupied k v :: arr)) with (k :: stored_keys arr).
  by rewrite IH.
Qed.

Lemma stored_values_items arr : stored_values arr = (stored_items arr).*2.
Proof.
  induction arr as [|[| |k v] arr IH]; [done|exact IH|exact IH|].
  change (stored_values (Occupied k v :: arr)) with (v :: stored_values arr).
  by rewrite IH.
Qed.

Lemma elem_of_stored_items arr k (v : V) :
  (k, v) ∈ stored_items arr <-> Occupied k v ∈ arr.
Proof.
  unfold stored_items. rewrite list_elem_of_omap. split.
  - intros ([| |k' v'] & Hin & Hk); try done. by injection Hk as -> ->.
  - intros Hin. by exists (Occupied k v).
Qed.

Lemma NoDup_stored_keys arr : distinct arr -> NoDup (stored_keys arr).
Proof.
  induction arr as [|s arr IH]; intros Hd; [constructor|].
  specialize (IH (distinct_tail _ _ Hd)).
  destruct s as [| |k v]; [exact IH | exact IH |].
  change (stored_keys (Occupied k v :: arr)) with (k :: stored_keys arr).
  apply NoDup_cons. split; [|done].
  intros [v' Hin]%elem_of_stored_keys. by apply (distinct_head k v v' arr).
Qed.

(** X18. In every state of a table object that holds no tombstone,
    [keys()] and [values()] return lists that go together: position by
    position they are the key and the value of one entry, no key comes
    twice, and the pairs are exactly those that [get] retrieves. *)
Theorem keys_values_aligned t :
  reachable t ->
  no_tombstone (array t) ->
  exists pairs : list (key * V),
    keys t = Return pairs.*1
    /\ values t = Return pairs.*2
    /\ NoDup pairs.*1
    /\ forall k v, (k, v) ∈ pairs <-> getitem t k = Return v.
Proof.
  intros Hf%reachable_findable Hno. exists (stored_items (array t)).
  destruct (keys_values_no_tombstone t Hno) as [Hkeys Hvalues].
  rewrite <- stored_keys_items, <- stored_values_items.
  split; [done|]. split; [done|].
  split; [by apply NoDup_stored_keys, findable_distinct|].
  intros k v. rewrite elem_of_stored_items, <- entry_elem_of. split.
  - by apply entry_getitem.
  - apply getitem_entry.
Qed.

Lemma str_loop_entries (str_value : V -> key) items :
  no_tombstone items ->
  forall res,
    str_loop str_value items res
    = Return (res ++ concat (item_str str_value <$> stored_items items)).
Proof.
  induction items as [|s items IH]; intros Hno res.
  - simpl. by rewrite app_nil_r.
  - assert (Hno' : no_tombstone items) by (intros i; apply (Hno (S i))).
    destruct s as [| |k v].
    + by apply IH.
    + by destruct (Hno 0%nat).
    + cbn [str_loop]. rewrite (IH Hno').
      change (stored_items (Occupied k v :: items))
        with ((k, v) :: stored_items items).
      rewrite fmap_cons. cbn [concat].
      change (str "(" ++ k ++ str "," ++ str_value v ++ str ")" ++ [10%N])
        with (item_str str_value (k, v)).
      by rewrite <- app_assoc.
Qed.

Lemma str_loop_tombstone (str_value : V -> key) items :
  DELETED ∈ items ->
  forall res, str_loop str_value items res = Throw TypeError.
Proof.
  induction items as [|[| |k v] rest IH]; intros Hin res; simpl.
  - by apply elem_of_nil in Hin.
  - apply elem_of_cons in Hin as [[=]|Hin]. by apply IH.
  - done.
  - apply elem_of_cons in Hin as [[=]|Hin]. by apply IH.
Qed.

(** X19. [__str__] returns the entries in slot order, each as
    ["(key,value)"] and a newline, when the table holds no tombstone, and
    raises [TypeError] when it holds one. *)
Theorem to_str_entries (str_value : V -> key) t :
  (no_tombstone (array t) ->
   to_str str_value t
   = Return (concat (item_str str_value <$> stored_items (array t))))
  /\ (forall i : nat,
        array t !! i = Some DELETED -> to_str str_value t = Throw TypeError).
Proof.
  split.
  - intros Hno. unfold to_str. by rewrite str_loop_entries.
  - intros i Hi%list_elem_of_lookup_2. by apply str_loop_tombstone.
Qed.

(** ** The constructor and the schedule *)

Lemma stored_keys_ArrayR (n : positive) : stored_keys (ArrayR (V:=V) n) = [].
Proof.
  unfold ArrayR. induction (Pos.to_nat n) as [|m IH]; [done | exact IH].
Qed.

Lemma stored_values_ArrayR (n : positive) :
  stored_values (ArrayR (V:=V) n) = [].
Proof.
  unfold ArrayR. induction (Pos.to_nat n) as [|m IH]; [done | exact IH].
Qed.

(** X20. [__init__] raises, with [IndexError], exactly when it is given an
    empty schedule. Otherwise the table starts at the first capacity of
    the schedule (the default one when none is given) with [len()] 0,
    [is_empty()] true, [keys()] and [values()] empty, and, at a capacity of
    at least 2, [KeyError] for every [get]. *)
Theorem init_fresh (sizes : option (list positive)) :
  (forall e, init (V:=V) sizes = Throw e -> e = IndexError /\ sizes = Some [])
  /\ (sizes = Some [] -> init (V:=V) sizes = Throw IndexError)
  /\ forall t,
       init sizes = Return t ->
       TABLE_SIZES t = default DEFAULT_TABLE_SIZES sizes
       /\ size_index t = 0%nat
       /\ on_schedule t
       /\ len t = 0
       /\ is_empty t = true
       /\ keys t = Return []
       /\ values t = Return []
       /\ forall k, 2 <= table_size t -> getitem t k = Throw KeyError.
Proof.
  split; [|split].
  - intros e. unfold init. destruct sizes as [[|n rest]|]; simpl; try done.
    by intros [= <-].
  - by intros ->.
  - intros t Hinit.
    assert (Hsizes : TABLE_SIZES t = default DEFAULT_TABLE_SIZES sizes).
    { revert Hinit. unfold init. destruct sizes as [l|]; simpl.
      - destruct (l !! 0%nat); [by intros [= <-] | done].
      - by intros [= <-]. }
    apply init_Return in Hinit as (n & Hn & Ht).
    assert (Harr : array t = ArrayR n) by (by rewrite Ht).
    assert (Hindex : size_index t = 0%nat) by (by rewrite Ht).
    assert (Hcount : count t = 0) by (by rewrite Ht).
    assert (Hno : no_tombstone (array t))
      by (rewrite Harr; apply ArrayR_no_tombstone).
    destruct (keys_values_no_tombstone t Hno) as [Hkeys Hvalues].
    rewrite Harr, stored_keys_ArrayR in Hkeys.
    rewrite Harr, stored_values_ArrayR in Hvalues.
    split; [done|]. split; [done|]. split.
    { exists n. rewrite Hindex. split; [done|].
      unfold table_size, ArrayR. rewrite Harr. unfold ArrayR.
      rewrite length_replicate. lia. }
    split; [done|]. split; [unfold is_empty; by rewrite Hcount|].
    split; [done|]. split; [done|].
    intros k Hsize.
    destruct (getitem_cases _ k Hsize) as [(v & _ & [i Hi])|[Hget _]];
      [|done].
    rewrite Harr in Hi. unfold ArrayR in Hi.
    by apply lookup_replicate_1 in Hi as [[=] _].
Qed.

(** X21. No call changes the schedule or takes [size_index] back: whatever
    a [set], a [delete] or a [_rehash] leaves behind, returning or raising,
    has the schedule it had and a [size_index] at least as large. *)
Theorem calls_keep_schedule t t' :
  (exists k v, leaves (setitem t k v) t')
  \/ (exists k, leaves (delitem t k) t')
  \/ leaves (rehash t) t' ->
  TABLE_SIZES t' = TABLE_SIZES t /\ (size_index t <= size_index t')%nat.
Proof.
  intros [(k & v & H)|[[k H]|H]].
  - by apply setitem_fuel_schedule in H.
  - apply delitem_leaves in H as [(p & _ & ->)%delitem_Ok| ->]; done.
  - apply rehash_with_schedule in H as [H1 H2]. split; [done | lia].
Qed.

End Listing.

Lemma keys_values_aligned_witness :
  no_tombstone (array example_abc)
  /\ exists pairs : list (key * Z),
       keys example_abc = Return pairs.*1
       /\ values example_abc = Return pairs.*2
       /\ NoDup pairs.*1
       /\ forall k v, (k, v) ∈ pairs <-> getitem example_abc k = Return v.
Proof.
  assert (H : no_tombstone (array example_abc)).
  { intros [|[|[|[|[|i]]]]]; discriminate. }
  split; [exact H|].
  exact (keys_values_aligned example_abc example_abc_reachable H).
Defined.

Lemma to_str_entries_witness :
  (no_tombstone (array example_abc)
   /\ array example_tombstone !! 2%nat = Some DELETED)
  /\ to_str (fun v : Z => [N.of_nat 48 + Z.to_N v]%N) example_abc
     = Return (str "(a,0)" ++ [10%N] ++ str "(b,1)" ++ [10%N]
               ++ str "(c,2)" ++ [10%N])
  /\ to_str (fun v : Z => [N.of_nat 48 + Z.to_N v]%N) example_tombstone
     = Throw TypeError.
Proof.
  assert (H : no_tombstone (array example_abc)).
  { intros [|[|[|[|[|i]]]]]; discriminate. }
  split; [split; [exact H | reflexivity]|]. split.
  - rewrite (proj1 (to_str_entries _ example_abc) H). reflexivity.
  - apply (proj2 (to_str_entries _ example_tombstone) 2%nat). reflexivity.
Defined.

Lemma init_fresh_witness :
  init (V:=Z) (Some []) = Throw IndexError
  /\ (init (Some [5%positive]) = Return example_fresh
      /\ keys example_fresh = Return []
      /\ getitem example_fresh (str "a") = Throw KeyError).
Proof.
  split.
  - apply (proj1 (proj2 (init_fresh (V:=Z) (Some [])))). reflexivity.
  - assert (H : init (Some [5%positive]) = Return example_fresh)
      by reflexivity.
    split; [exact H|].
    destruct (proj2 (proj2 (init_fresh (Some [5%positive]))) example_fresh H)
      as (_ & _ & _ & _ & _ & Hkeys & _ & Hget).
    split; [exact Hkeys|]. apply Hget. vm_compute. discriminate.
Defined.

Lemma calls_keep_schedule_witness :
  leaves (setitem example_abc (str "d") 3) example_abcd_full
  /\ TABLE_SIZES example_abcd_full = TABLE_SIZES example_abc
  /\ (size_index example_abc <= size_index example_abcd_full)%nat.
Proof.
  assert (H : leaves (setitem example_abc (str "d") 3) example_abcd_full)
    by (right; by exists FullError).
  split; [exact H|].
  apply (calls_keep_schedule example_abc example_abcd_full).
  left. by exists (str "d"), 3.
Defined.

Section TeamOrder.

(** ** [Team.__lt__] and [Team.__gt__] *)

Implicit Types (a b c : list N).

Lemma name_length_min a b :
  name_length a b = Nat.min (length a) (length b).
Proof.
  unfold name_length. destruct (Nat.ltb_spec (length b) (length a)); lia.
Qed.

Lemma name_loop_first_difference (cmp : Z -> Z -> bool) a :
  forall b (pa pb : list N),
    length pa = length pb ->
    name_loop cmp (seq (length pa) (Nat.min (length a) (length b)))
      (pa ++ a) (pb ++ b)
    = (fun xy : N * N => cmp (ord xy.1) (ord xy.2)) <$> first_difference a b.
Proof.
  induction a as [|x a IH]; intros [|y b] pa pb Hlen; try done.
  cbn [length Nat.min seq name_loop first_difference].
  rewrite list_lookup_middle by done.
  rewrite list_lookup_middle by done.
  destruct (ord x =? ord y); [|done].
  rewrite (cons_middle x pa a), (cons_middle y pb b), !app_assoc.
  replace (S (length pa)) with (length (pa ++ [x]))
    by (rewrite length_app; simpl; lia).
  apply IH. rewrite !length_app. simpl. lia.
Qed.

Lemma Team_lt_first_difference a b :
  Team_lt a b
  = (fun xy : N * N => ord xy.1 <? ord xy.2) <$> first_difference a b.
Proof.
  unfold Team_lt. rewrite name_length_min.
  apply (name_loop_first_difference Z.ltb a b [] []). done.
Qed.

Lemma Team_gt_first_difference a b :
  Team_gt a b
  = (fun xy : N * N => ord xy.1 >? ord xy.2) <$> first_difference a b.
Proof.
  unfold Team_gt. rewrite name_length_min.
  apply (name_loop_first_difference Z.gtb a b [] []). done.
Qed.

Lemma first_difference_swap a :
  forall b,
    first_difference b a
    = (fun xy : N * N => (xy.2, xy.1)) <$> first_difference a b.
Proof.
  induction a as [|x a IH]; intros [|y b]; try done. simpl.
  rewrite (Z.eqb_sym (ord y)). destruct (ord x =? ord y); [apply IH | done].
Qed.

Lemma first_difference_None a :
  forall b, first_difference a b = None <-> a `prefix_of` b \/ b `prefix_of` a.
Proof.
  induction a as [|x a IH]; intros [|y b]; simpl.
  - split; [left; done | done].
  - split; [left; apply prefix_nil | done].
  - split; [right; apply prefix_nil | done].
  - unfold ord. destruct (Z.eqb_spec (Z.of_N x) (Z.of_N y)) as [Heq|Hne].
    + apply N2Z.inj in Heq as ->. rewrite IH.
      split; (intros [H|H]; [left | right]);
        first [by apply prefix_cons | by apply prefix_cons_inv_2 in H].
    + split; [done|].
      intros [H|H]; apply prefix_cons_inv_1 in H; congruence.
Qed.

Lemma first_difference_Some a :
  forall b x y,
    first_difference a b = Some (x, y) ->
    x <> y
    /\ exists p a' b', a = p ++ x :: a' /\ b = p ++ y :: b'.
Proof.
  induction a as [|x0 a IH]; intros [|y0 b] x y; simpl; try done.
  unfold ord. destruct (Z.eqb_spec (Z.of_N x0) (Z.of_N y0)) as [Heq|Hne].
  - apply N2Z.inj in Heq as ->.
    intros (Hxy & p & a' & b' & -> & ->)%IH. split; [done|].
    by exists (y0 :: p), a', b'.
  - intros [= <- <-]. split; [congruence|]. by exists [], a, b.
Qed.

Lemma first_difference_app p a b :
  first_difference (p ++ a) (p ++ b) = first_difference a b.
Proof.
  induction p as [|x p IH]; [done|]. simpl. by rewrite Z.eqb_refl.
Qed.

(** X22. [Team.__lt__] and [Team.__gt__] mirror each other: [a < b]
    returns what [b > a] returns. When [a < b] returns a boolean, [a > b]
    returns its negation, so the two are never both true. *)
Theorem Team_lt_gt_mirror a b :
  Team_lt a b = Team_gt b a
  /\ forall r : bool, Team_lt a b = Some r -> Team_gt a b = Some (negb r).
Proof.
  rewrite !Team_lt_first_difference, !Team_gt_first_difference.
  rewrite (first_difference_swap a b). split.
  - destruct (first_difference a b) as [[x y]|]; simpl; [|done].
    by rewrite Z.gtb_ltb.
  - intros r. destruct (first_difference a b) as [[x y]|] eqn:E; simpl;
      [|done].
    intros [= <-]. apply first_difference_Some in E as [Hne _].
    f_equal. rewrite Z.gtb_ltb. unfold ord.
    destruct (Z.ltb_spec (Z.of_N x) (Z.of_N y)),
      (Z.ltb_spec (Z.of_N y) (Z.of_N x)); try done; lia.
Qed.

(** X23. [Team.__lt__] and [Team.__gt__] return [None], neither true nor
    false, exactly when one name is a prefix of the other: equal names,
    and also names such as ["ab"] and ["abc"], are left unordered. *)
Theorem Team_lt_None_iff_prefix a b :
  (Team_lt a b = None <-> a `prefix_of` b \/ b `prefix_of` a)
  /\ (Team_gt a b = None <-> a `prefix_of` b \/ b `prefix_of` a).
Proof.
  rewrite Team_lt_first_difference, Team_gt_first_difference.
  rewrite <- first_difference_None.
  split; by destruct (first_difference a b).
Qed.

(** X24. [Team.__lt__] is transitive where it returns true. *)
Theorem Team_lt_transitive a b c :
  Team_lt a b = Some true ->
  Team_lt b c = Some true ->
  Team_lt a c = Some true.
Proof.
  rewrite !Team_lt_first_difference.
  destruct (first_difference a b) as [[x y]|] eqn:Eab; [|done].
  destruct (first_difference b c) as [[y' z]|] eqn:Ebc; [|done].
  simpl. intros [= Hxy] [= Hyz].
  apply Z.ltb_lt in Hxy, Hyz. unfold ord in *.
  apply first_difference_Some in Eab as (_ & p & a' & b' & -> & Hb).
  apply first_difference_Some in Ebc as (_ & q & b'' & c' & Hb' & ->).
  rewrite Hb in Hb'. clear Hb. revert q Hb'.
  induction p as [|u p IH]; intros [|w q] Hb; simpl in *.
  - injection Hb as -> ->. unfold ord.
    destruct (Z.eqb_spec (Z.of_N x) (Z.of_N z)) as [Heq|_]; [lia|].
    simpl. f_equal. apply Z.ltb_lt. lia.
  - injection Hb as <- ->. unfold ord.
    destruct (Z.eqb_spec (Z.of_N x) (Z.of_N y)) as [Heq|_]; [lia|].
    simpl. f_equal. by apply Z.ltb_lt.
  - injection Hb as -> <-. unfold ord.
    destruct (Z.eqb_spec (Z.of_N y') (Z.of_N z)) as [Heq|_]; [lia|].
    simpl. f_equal. by apply Z.ltb_lt.
  - injection Hb as <- Hb. rewrite Z.eqb_refl. by apply IH.
Qed.

End TeamOrder.

Lemma Team_lt_gt_mirror_witness :
  Team_lt (str "Arsenal") (str "Aston") = Some true
  /\ Team_gt (str "Aston") (str "Arsenal") = Some true
  /\ Team_gt (str "Arsenal") (str "Aston") = Some false.
Proof.
  assert (H : Team_lt (str "Arsenal") (str "Aston") = Some true)
    by reflexivity.
  split; [exact H|].
  destruct (Team_lt_gt_mirror (str "Arsenal") (str "Aston")) as [H1 H2].
  split; [by rewrite <- H1 | exact (H2 true H)].
Defined.

Lemma Team_lt_None_iff_prefix_witness :
  str "ab" `prefix_of` str "abc"
  /\ Team_lt (str "ab") (str "abc") = None
  /\ Team_gt (str "ab") (str "abc") = None.
Proof.
  assert (H : str "ab" `prefix_of` str "abc") by (by exists (str "c")).
  split; [exact H|].
  destruct (Team_lt_None_iff_prefix (str "ab") (str "abc")) as [H1 H2].
  split; [apply H1 | apply H2]; by left.
Defined.

Lemma Team_lt_transitive_witness :
  (Team_lt (str "Arsenal") (str "Aston") = Some true
   /\ Team_lt (str "Aston") (str "Chelsea") = Some true)
  /\ Team_lt (str "Arsenal") (str "Chelsea") = Some true.
Proof.
  split; [split; reflexivity|].
  apply (Team_lt_transitive (str "Arsenal") (str "Aston") (str "Chelsea"));
    reflexivity.
Defined.
